(** * queue-inmemory-webhook-forwarder: the batching and retry engine

    A shallow embedding of [cmd/queue-inmemory-webhook-forwarder/forwarder.go]:
    the delivery client ([forwardWithRetries], [forwardEvents]) and the
    accumulator ([bgProcessor], fed by [forward]).

    Go code with effects is written in a small state monad over a [World]
    that records, in order, every call that leaves the package
    (json.Marshal, http.NewRequest, time.Sleep, http.DefaultClient.Do,
    res.Body.Close, logrus, the send on errCh, time.After).

    What the package does not decide is taken as given: how one record
    encodes to JSON, whether the endpoint parses as a URL, and what each
    call of Do answers.  The goroutines of [forward] and [bgProcessor] meet
    at the unbuffered channel [msg]; their interleaving is a list of
    scheduling choices, one for each pass of the loop of bgProcessor.

    Left out: the context [ctx], which the code only passes on; the
    latency field of the success log (time.Now, time.Since); the lazy
    provider newWebhookForwarderDIProvider.  The send on errCh is taken to
    complete, that is, somebody reads the error sink. *)

From Stdlib Require Import ZArith List String Ascii Bool Lia DecimalString.
Import ListNotations.
Open Scope string_scope.
Open Scope list_scope.
Open Scope Z_scope.

(** ** Go's [int] *)

Module GoInt.

Definition minInt : Z := - 2 ^ 63.
Definition maxInt : Z := 2 ^ 63 - 1.

(** Two's complement wrap-around of a 64-bit signed integer. *)
Definition wrap (z : Z) : Z := (z + 2 ^ 63) mod 2 ^ 64 - 2 ^ 63.

(** [n++] *)
Definition incr (n : Z) : Z := wrap (n + 1).

Definition inRange (z : Z) : Prop := minInt <= z <= maxInt.

End GoInt.

(** ** Errors

    [error] values as the code builds them: an error handed back by a
    library, [errors.Wrap], and the one [errors.Errorf] of the file. *)

Inductive GoError : Type :=
| ErrLib (msg : string)
| ErrWrap (cause : GoError) (msg : string)
| ErrUnexpectedStatus (got : Z).

Definition dquote : string := String (ascii_of_nat 34) EmptyString.

Definition decimal (z : Z) : string := NilZero.string_of_int (Z.to_int z).

(** [err.Error()] *)
Fixpoint errorText (e : GoError) : string :=
  match e with
  | ErrLib msg => msg
  | ErrWrap cause msg => (msg ++ ": " ++ errorText cause)%string
  | ErrUnexpectedStatus got =>
      ("unexpected status code from post request got:" ++ decimal got
       ++ " want:" ++ dquote ++ "status code in[200,300)" ++ dquote)%string
  end.

(** ** net/http values *)

Record Request : Type := mkRequest {
  Method : string;
  URL : string;
  Header : list (string * string);
  (** set by http.NewRequest from the length of the *bytes.Buffer *)
  ContentLength : Z
}.

Definition headerAdd (k v : string) (r : Request) : Request :=
  {| Method := Method r; URL := URL r;
     Header := Header r ++ [(k, v)];
     ContentLength := ContentLength r |}.

Record Response : Type := mkResponse { StatusCode : Z }.

Definition MethodPost : string := "POST".

(** ** The configuration *)

Record webhookForwarder : Type := mkWebhookForwarder {
  endpoint : string;
  batchSize : Z;
  batchInterval : Z;        (* time.Duration, nanoseconds *)
  retrySleepInterval : Z;   (* time.Duration, nanoseconds *)
  retryLimit : Z
}.

(** The part of [dic.flags] the constructor reads. *)
Record flags : Type := mkFlags {
  postEndpoint : string;
  flagBatchSize : Z;
  flagBatchInterval : Z
}.

Definition Second : Z := 1000000000.

Definition newWebhookForwarderHandler (f : flags) : webhookForwarder :=
  {| endpoint := postEndpoint f;
     batchSize := flagBatchSize f;
     batchInterval := flagBatchInterval f;
     retrySleepInterval := 2 * Second;
     retryLimit := 3 |}.

(** [newWebhookForwarderDIProvider], lines 34-45.  The closure keeps one
    variable [w], nil until the first call; the mutex makes the calls one
    after the other.  A call is given [dic.flags] as they are when it runs
    and the variable, and returns the forwarder and the variable. *)
Definition provide (f : flags) (cell : option webhookForwarder)
  : webhookForwarder * option webhookForwarder :=
  match cell with
  | None => let w := newWebhookForwarderHandler f in (w, Some w)
  | Some w => (w, Some w)
  end.

(** Calls in a row, each with the flags of its moment. *)
Fixpoint provideAll (fs : list flags) (cell : option webhookForwarder)
  : list webhookForwarder * option webhookForwarder :=
  match fs with
  | [] => ([], cell)
  | f :: fs' =>
      let '(w, cell') := provide f cell in
      let '(ws, cell'') := provideAll fs' cell' in
      (w :: ws, cell'')
  end.

Section Forwarder.

(** The record type is declared elsewhere in the package; the forwarder
    never looks inside a record. *)
Variable logHTTPHandlerRequestBody : Type.

(** encoding/json on one record: the JSON text or the error. *)
Variable marshalRecord : logHTTPHandlerRequestBody -> string + string.

(** net/url: the error of parsing the endpoint, if any. *)
Variable urlParseError : string -> option string.

(** [http.DefaultClient.Do]: the [n]-th call of the run, on a request
    whose body reader still holds [unread]; it answers with an error or a
    response and leaves the reader at some new position. *)
Variable clientDo :
  nat -> Request -> string -> (GoError + Response) * string.

(** *** Slices *)

Inductive slice : Type :=
| nilSlice
| mkSlice (elems : list logHTTPHandlerRequestBody).

Definition elems (s : slice) : list logHTTPHandlerRequestBody :=
  match s with nilSlice => [] | mkSlice l => l end.

Definition len (s : slice) : Z := Z.of_nat (List.length (elems s)).

Definition append (s : slice) (x : logHTTPHandlerRequestBody) : slice :=
  mkSlice (elems s ++ [x]).

(** *** The world *)

Inductive Event : Type :=
| EvMarshal (payload : slice)
| EvNewRequest (method url : string)
| EvSleep (d : Z)
| EvDo (req : Request) (unread : string)
| EvClose (res : Response)
| EvLog (msg : string) (fields : list (string * Z))
| EvErrCh (err : GoError)
| EvAfter (d : Z).

Record World : Type := mkWorld {
  trace : list Event;   (* oldest first *)
  clock : nat           (* calls of http.DefaultClient.Do so far *)
}.

(** State passing; [None] is a computation that does not come back. *)
Definition M (A : Type) : Type := World -> option (A * World).

Definition ret {A} (a : A) : M A := fun s => Some (a, s).

Definition bind {A B} (m : M A) (k : A -> M B) : M B :=
  fun s => match m s with
           | Some (a, s') => k a s'
           | None => None
           end.

Definition diverge {A} : M A := fun _ => None.

Definition emit (e : Event) : M unit :=
  fun s => Some (tt, {| trace := trace s ++ [e]; clock := clock s |}).

Notation "x <- m ;; k" := (bind m (fun x => k))
  (at level 100, m at next level, right associativity).
Notation "m ;;; k" := (bind m (fun _ => k))
  (at level 100, right associativity).

(** *** Library calls *)

Fixpoint marshalElems (l : list logHTTPHandlerRequestBody)
  : string + list string :=
  match l with
  | [] => inr []
  | x :: l' =>
      match marshalRecord x with
      | inl e => inl e
      | inr j =>
          match marshalElems l' with
          | inl e => inl e
          | inr js => inr (j :: js)
          end
      end
  end.

(** encoding/json on a slice: a nil slice is [null], any other one an
    array of its elements in order. *)
Definition jsonArray (l : list logHTTPHandlerRequestBody) : string + string :=
  match marshalElems l with
  | inl e => inl e
  | inr js => inr ("[" ++ String.concat "," js ++ "]")%string
  end.

Definition jsonText (s : slice) : GoError + string :=
  match s with
  | nilSlice => inr "null"
  | mkSlice l =>
      match jsonArray l with
      | inl e => inl (ErrLib e)
      | inr j => inr j
      end
  end.

Definition jsonMarshal (s : slice) : M (GoError + string) :=
  emit (EvMarshal s) ;;; ret (jsonText s).

(** [http.NewRequest(method, url, bytes.NewBuffer(body))]: the request and
    the buffer its Body reads from. *)
Definition httpNewRequest (method url body : string)
  : M (GoError + Request * string) :=
  emit (EvNewRequest method url) ;;;
  ret match urlParseError url with
      | Some e => inl (ErrLib e)
      | None =>
          inr ({| Method := method; URL := url; Header := [];
                  ContentLength := Z.of_nat (String.length body) |}, body)
      end.

Definition timeSleep (d : Z) : M unit := emit (EvSleep d).

Definition httpDo (req : Request) (unread : string)
  : M ((GoError + Response) * string) :=
  fun s =>
    Some (clientDo (clock s) req unread,
          {| trace := trace s ++ [EvDo req unread]; clock := S (clock s) |}).

Definition logInfo (msg : string) (fields : list (string * Z)) : M unit :=
  emit (EvLog msg fields).

(** [time.After(d)]: the channel of a timer armed for [d]. *)
Definition timeAfter (d : Z) : M (option Z) :=
  emit (EvAfter d) ;;; ret (Some d).

(** The deferred [res.Body.Close()] calls, last deferred first. *)
Fixpoint runDeferred (ds : list Response) : M unit :=
  match ds with
  | [] => ret tt
  | r :: ds' => emit (EvClose r) ;;; runDeferred ds'
  end.

Variable w : webhookForwarder.

(** *** forwardWithRetries

    Lines 129-180. *)

(** The [for] loop of lines 149-179.  [body] is the buffer behind
    [req.Body]: one buffer, made once, read by every call of Do. *)
Fixpoint retryLoop (fuel : nat) (req : Request) (body : string)
    (deferred : list Response)
    (retries : Z) (lastErr : option GoError) (lastStatusCode : Z)
  : M (Z * option GoError) :=
  match fuel with
  | O => diverge
  | S fuel' =>
      if retries >? retryLimit w then
        runDeferred deferred ;;; ret (lastStatusCode, lastErr)
      else
        (if retries >=? 1 then
           logInfo "post err"
             [("retry", retries); ("sleep_interval", retrySleepInterval w)] ;;;
           timeSleep (retrySleepInterval w)
         else ret tt) ;;;
        r <- httpDo req body ;;
        match r with
        | (inl err, body') =>
            retryLoop fuel' req body' deferred (GoInt.incr retries)
              (Some (ErrWrap err "DO http client request")) lastStatusCode
        | (inr res, body') =>
            if (StatusCode res >=? 200) && (StatusCode res <? 300) then
              runDeferred (res :: deferred) ;;; ret (StatusCode res, None)
            else
              retryLoop fuel' req body' (res :: deferred) (GoInt.incr retries)
                (Some (ErrUnexpectedStatus (StatusCode res)))
                (StatusCode res)
        end
  end.

(** The loop heads the counter passes, from 0, before
    [retries > w.retryLimit] holds.  With a limit below the largest [int]
    the loop is over by then; with the largest [int] itself the counter
    wraps, the comparison never holds, and [None] stands for a loop still
    running after 2^63 failed attempts. *)
Definition loopFuel : nat := S (Z.to_nat (retryLimit w + 1)).

Definition forwardWithRetries (eventsPayload : slice)
  : M (Z * option GoError) :=
  m <- jsonMarshal eventsPayload ;;
  match m with
  | inl err => ret (0, Some (ErrWrap err "marshal"))
  | inr bodyWebhook =>
      n <- httpNewRequest MethodPost (endpoint w) bodyWebhook ;;
      match n with
      | inl err => ret (0, Some (ErrWrap err "new HTTP request"))
      | inr (req, body) =>
          let req := headerAdd "Content-Type" "application/json" req in
          retryLoop loopFuel req body [] 0 None 0
      end
  end.

(** *** forwardEvents

    Lines 102-127. *)

Definition forwardEvents (eventsPayload : slice) (byInterval : bool)
  : M unit :=
  if len eventsPayload =? 0 then ret tt
  else
    (if byInterval then
       logInfo "batch interval" [("flush", batchInterval w)]
     else ret tt) ;;;
    r <- forwardWithRetries eventsPayload ;;
    match r with
    | (_, Some err) =>
        emit (EvErrCh (ErrWrap err "forward with retries exhausted"))
    | (statusCode, None) =>
        logInfo "webhook request success"
          [("http_status_code", statusCode);
           ("batch_size", len eventsPayload)]
    end.

(** *** bgProcessor *)

(** The loop variables.  [deadline] is [None] for the nil channel and
    [Some d] for the channel of a timer armed for [d]. *)
Record bgState : Type := mkBgState {
  eventsPayload : slice;
  deadline : option Z
}.

(** What the goroutine finds when it reaches the [select]: a value
    offered on [msg], whether the armed timer has fired, and the choice
    the runtime makes when both cases can proceed. *)
Record Ready : Type := mkReady {
  msgReady : option logHTTPHandlerRequestBody;
  timerFired : bool;
  pick : bool
}.

Inductive SelectCase : Type :=
| CaseMsg (ep : logHTTPHandlerRequestBody)
| CaseDeadline
| CaseDefault.

(** A receive from a nil channel never proceeds. *)
Definition chanReady (dl : option Z) (fired : bool) : bool :=
  match dl with
  | None => false
  | Some _ => fired
  end.

(** Go's [select] over the two receives: one of the ready cases; when
    none is ready, the [default] case if the statement has one, and
    otherwise the goroutine blocks ([None]). *)
Definition goSelect (hasDefault : bool)
    (msg : option logHTTPHandlerRequestBody) (deadlineReady pick : bool)
  : option SelectCase :=
  match msg, deadlineReady with
  | Some ep, true => Some (if pick then CaseMsg ep else CaseDeadline)
  | Some ep, false => Some (CaseMsg ep)
  | None, true => Some CaseDeadline
  | None, false => if hasDefault then Some CaseDefault else None
  end.

(** How one pass through the loop body ends. *)
Inductive Ctl : Type :=
| Continue (st : bgState)   (* back to the head of the loop *)
| Blocked (st : bgState)    (* suspended in the select *)
| Returned.                 (* the function returned *)

Definition resetDeadline (dl : option Z) : M (option Z) :=
  if batchInterval w >? 0 then timeAfter (batchInterval w) else ret dl.

(** The condition of line 66. *)
Definition sizeTrigger (st : bgState) : bool :=
  (batchSize w >? 0) && (len (eventsPayload st) >=? batchSize w).

(** Lines 66-79: the size check at the head of the loop. *)
Definition sizeFlush (st : bgState) : M bgState :=
  if sizeTrigger st then
    forwardEvents (eventsPayload st) false ;;;
    dl <- resetDeadline (deadline st) ;;
    ret {| eventsPayload := nilSlice; deadline := dl |}
  else ret st.

(** One pass through the body of the [for] (lines 66-98); the boolean
    tells whether the value offered on [msg] was received. *)
Definition bgIter (rd : Ready) (st : bgState) : M (Ctl * bool) :=
  st1 <- sizeFlush st ;;
  match goSelect true (msgReady rd)
          (chanReady (deadline st1) (timerFired rd)) (pick rd) with
  | Some (CaseMsg ep) =>
      ret (Continue {| eventsPayload := append (eventsPayload st1) ep;
                       deadline := deadline st1 |}, true)
  | Some CaseDeadline =>
      forwardEvents (eventsPayload st1) true ;;;
      dl <- resetDeadline (deadline st1) ;;
      ret (Continue {| eventsPayload := nilSlice; deadline := dl |}, false)
  | Some CaseDefault => ret (Continue st1, false)
  | None => ret (Blocked st1, false)
  end.

(** Lines 60-64. *)
Definition bgStart : M bgState :=
  dl <- (if batchInterval w >? 0 then timeAfter (batchInterval w)
         else ret None) ;;
  ret {| eventsPayload := mkSlice []; deadline := dl |}.

(** The loop, run for as many passes as [rds] describes. *)
Fixpoint bgLoop (rds : list Ready) (st : bgState) : M Ctl :=
  match rds with
  | [] => ret (Continue st)
  | rd :: rds' =>
      r <- bgIter rd st ;;
      match r with
      | (Continue st', _) => bgLoop rds' st'
      | (c, _) => ret c
      end
  end.

Definition bgProcessor (rds : list Ready) : M Ctl :=
  st <- bgStart ;; bgLoop rds st.

(** *** forward *)

(** The scheduling of one pass of bgProcessor against the pumping loop
    of [forward]: whether [forward] stands at [msg <- ms] with the next
    record of [msgStream], whether the timer has fired, and the choice of
    the runtime. *)
Record Sched : Type := mkSched {
  senderReady : bool;
  fired : bool;
  coin : bool
}.

(** [msg] is unbuffered: a record leaves [msgStream] when bgProcessor
    receives it.  With [msgStream] used up, [forward] has left its
    [range] loop (or waits in it) and nothing is offered on [msg]. *)
Fixpoint pump (scheds : list Sched)
    (msgStream : list logHTTPHandlerRequestBody) (st : bgState)
  : M (Ctl * list logHTTPHandlerRequestBody) :=
  match scheds with
  | [] => ret (Continue st, msgStream)
  | s :: scheds' =>
      let offer := if senderReady s then hd_error msgStream else None in
      r <- bgIter {| msgReady := offer; timerFired := fired s;
                     pick := coin s |} st ;;
      match r with
      | (Continue st', took) =>
          pump scheds' (if took then tl msgStream else msgStream) st'
      | (c, _) => ret (c, msgStream)
      end
  end.

Definition forward (scheds : list Sched)
    (msgStream : list logHTTPHandlerRequestBody)
  : M (Ctl * list logHTTPHandlerRequestBody) :=
  st <- bgStart ;; pump scheds msgStream st.

(** How many passes found [forward] ready to send, and whether the last
    pass found nothing offered on [msg]. *)
Definition offered (scheds : list Sched) : nat :=
  List.length (filter senderReady scheds).

Fixpoint endsIdle (scheds : list Sched) : bool :=
  match scheds with
  | [] => false
  | [s] => negb (senderReady s)
  | _ :: scheds' => endsIdle scheds'
  end.

(** The record a pass receives, as a list, and whether it received one. *)
Definition received (offer : option logHTTPHandlerRequestBody)
  : list logHTTPHandlerRequestBody :=
  match offer with Some ep => [ep] | None => [] end.

Definition taken (offer : option logHTTPHandlerRequestBody) : bool :=
  match offer with Some _ => true | None => false end.

(** A batch of exactly [n] records. *)
Definition fullBatch (n : Z) (b : list logHTTPHandlerRequestBody) : Prop :=
  Z.of_nat (List.length b) = n.

(** *** Reading a trace *)

(** The batches handed to [forwardWithRetries], oldest first. *)
Fixpoint flushes (tr : list Event) : list (list logHTTPHandlerRequestBody) :=
  match tr with
  | [] => []
  | EvMarshal p :: tr' => elems p :: flushes tr'
  | _ :: tr' => flushes tr'
  end.

(** What reached the error sink. *)
Fixpoint errSink (tr : list Event) : list GoError :=
  match tr with
  | [] => []
  | EvErrCh e :: tr' => e :: errSink tr'
  | _ :: tr' => errSink tr'
  end.

Inductive Tick : Type :=
| TSleep (d : Z)
| TDo (req : Request) (unread : string).

(** The sleeps and the HTTP attempts of a trace, in order. *)
Fixpoint timeline (tr : list Event) : list Tick :=
  match tr with
  | [] => []
  | EvSleep d :: tr' => TSleep d :: timeline tr'
  | EvDo req unread :: tr' => TDo req unread :: timeline tr'
  | _ :: tr' => timeline tr'
  end.

Definition isDo (t : Tick) : bool :=
  match t with TDo _ _ => true | TSleep _ => false end.

Definition httpAttempts (tr : list Event) : nat :=
  List.length (filter isDo (timeline tr)).

Definition sleeps (tr : list Event) : nat :=
  List.length (filter (fun t => negb (isDo t)) (timeline tr)).

(** The events [forwardWithRetries] produces after its json.Marshal. *)
Definition deliveryEvent (e : Event) : bool :=
  match e with
  | EvNewRequest _ _ | EvSleep _ | EvDo _ _ | EvClose _ | EvLog _ _ => true
  | EvMarshal _ | EvErrCh _ | EvAfter _ => false
  end.

(** *** The attempts of one batch *)

(** The request line 136-144 builds for a body. *)
Definition buildRequest (bodyWebhook : string) : Request :=
  headerAdd "Content-Type" "application/json"
    {| Method := MethodPost; URL := endpoint w; Header := [];
       ContentLength := Z.of_nat (String.length bodyWebhook) |}.

(** What [n] successive calls of Do answer, from call number [k] on. *)
Fixpoint attempts (n k : nat) (req : Request) (body : string)
  : list (GoError + Response) :=
  match n with
  | O => []
  | S n' =>
      let '(r, body') := clientDo k req body in
      r :: attempts n' (S k) req body'
  end.

(** What the body reader holds at each of these calls. *)
Fixpoint readerStates (n k : nat) (req : Request) (body : string)
  : list string :=
  match n with
  | O => []
  | S n' => body :: readerStates n' (S k) req (snd (clientDo k req body))
  end.

Definition succeeded (r : GoError + Response) : bool :=
  match r with
  | inl _ => false
  | inr res => (StatusCode res >=? 200) && (StatusCode res <? 300)
  end.

Definition failed (r : GoError + Response) : bool := negb (succeeded r).

(** The error the loop keeps for a failed attempt. *)
Definition attemptError (r : GoError + Response) : GoError :=
  match r with
  | inl err => ErrWrap err "DO http client request"
  | inr res => ErrUnexpectedStatus (StatusCode res)
  end.

(** The status of the last attempt that had a response; [start] when
    none had. *)
Definition lastStatus (start : Z) (rs : list (GoError + Response)) : Z :=
  fold_left (fun acc r => match r with
                          | inl _ => acc
                          | inr res => StatusCode res
                          end) rs start.

Definition lastError (start : option GoError)
    (rs : list (GoError + Response)) : option GoError :=
  fold_left (fun _ r => Some (attemptError r)) rs start.

(** The events of one pass of the retry loop before its call of Do. *)
Definition beforeAttempt (retries : Z) : list Event :=
  if retries >=? 1 then
    [EvLog "post err"
       [("retry", retries); ("sleep_interval", retrySleepInterval w)];
     EvSleep (retrySleepInterval w)]
  else [].

(** The world in which forwardEvents calls forwardWithRetries. *)
Definition announced (byInterval : bool) (st : World) : World :=
  if byInterval then
    {| trace := trace st ++ [EvLog "batch interval" [("flush", batchInterval w)]];
       clock := clock st |}
  else st.

(** A step made with request [req], or a sleep of the configured length. *)
Definition regular (req : Request) (t : Tick) : Prop :=
  match t with
  | TDo r _ => r = req
  | TSleep d => d = retrySleepInterval w
  end.

(** Sleep before every attempt but the first; [retries] counts the
    attempts already made. *)
Fixpoint schedule (retries : Z) (reads : list string) (req : Request)
  : list Tick :=
  match reads with
  | [] => []
  | b :: reads' =>
      (if retries >=? 1 then [TSleep (retrySleepInterval w)] else [])
      ++ TDo req b :: schedule (retries + 1) reads' req
  end.

(** The responses among the answers of Do, oldest first. *)
Fixpoint responsesOf (rs : list (GoError + Response)) : list Response :=
  match rs with
  | [] => []
  | inl _ :: rs' => responsesOf rs'
  | inr res :: rs' => res :: responsesOf rs'
  end.

(** The response bodies a trace closes, in order. *)
Fixpoint closes (tr : list Event) : list Response :=
  match tr with
  | [] => []
  | EvClose res :: tr' => res :: closes tr'
  | _ :: tr' => closes tr'
  end.

(** The channel [deadline] holds with this configuration: a timer armed
    for batchInterval, or nil. *)
Definition armed : option Z :=
  if batchInterval w >? 0 then Some (batchInterval w) else None.

(** The passes in which the timer has fired. *)
Definition firings (scheds : list Sched) : nat :=
  List.length (filter fired scheds).

(** The world went from [wd] to [wd'] by events that put no more errors
    on the sink than they hand batches to the delivery client, and with no
    more calls of Do than retryLimit + 1 for each such batch. *)
Definition charged (wd wd' : World) : Prop :=
  exists evs,
    trace wd' = trace wd ++ evs
    /\ (clock wd <= clock wd')%nat
    /\ (List.length (errSink evs) <= List.length (flushes evs))%nat
    /\ Z.of_nat (clock wd' - clock wd)
       <= (retryLimit w + 1) * Z.of_nat (List.length (flushes evs)).

(** A batch of at most [n] records. *)
Definition withinBatch (n : Z) (b : list logHTTPHandlerRequestBody) : Prop :=
  Z.of_nat (List.length b) <= n.

End Forwarder.

Arguments nilSlice {logHTTPHandlerRequestBody}.
Arguments mkSlice {logHTTPHandlerRequestBody}.
Arguments elems {logHTTPHandlerRequestBody}.
Arguments len {logHTTPHandlerRequestBody}.
Arguments append {logHTTPHandlerRequestBody}.
Arguments EvMarshal {logHTTPHandlerRequestBody}.
Arguments EvNewRequest {logHTTPHandlerRequestBody}.
Arguments EvSleep {logHTTPHandlerRequestBody}.
Arguments EvDo {logHTTPHandlerRequestBody}.
Arguments EvClose {logHTTPHandlerRequestBody}.
Arguments EvLog {logHTTPHandlerRequestBody}.
Arguments EvErrCh {logHTTPHandlerRequestBody}.
Arguments EvAfter {logHTTPHandlerRequestBody}.
Arguments mkWorld {logHTTPHandlerRequestBody}.
Arguments trace {logHTTPHandlerRequestBody}.
Arguments clock {logHTTPHandlerRequestBody}.
Arguments ret {logHTTPHandlerRequestBody A} a.
Arguments bind {logHTTPHandlerRequestBody A B} m k.
Arguments diverge {logHTTPHandlerRequestBody A}.
Arguments emit {logHTTPHandlerRequestBody}.
Arguments marshalElems {logHTTPHandlerRequestBody}.
Arguments jsonArray {logHTTPHandlerRequestBody}.
Arguments jsonText {logHTTPHandlerRequestBody}.
Arguments jsonMarshal {logHTTPHandlerRequestBody}.
Arguments httpNewRequest {logHTTPHandlerRequestBody}.
Arguments timeSleep {logHTTPHandlerRequestBody}.
Arguments httpDo {logHTTPHandlerRequestBody}.
Arguments logInfo {logHTTPHandlerRequestBody}.
Arguments timeAfter {logHTTPHandlerRequestBody}.
Arguments runDeferred {logHTTPHandlerRequestBody}.
Arguments retryLoop {logHTTPHandlerRequestBody}.
Arguments forwardWithRetries {logHTTPHandlerRequestBody}.
Arguments forwardEvents {logHTTPHandlerRequestBody}.
Arguments mkBgState {logHTTPHandlerRequestBody}.
Arguments eventsPayload {logHTTPHandlerRequestBody}.
Arguments deadline {logHTTPHandlerRequestBody}.
Arguments mkReady {logHTTPHandlerRequestBody}.
Arguments msgReady {logHTTPHandlerRequestBody}.
Arguments timerFired {logHTTPHandlerRequestBody}.
Arguments pick {logHTTPHandlerRequestBody}.
Arguments CaseMsg {logHTTPHandlerRequestBody}.
Arguments CaseDeadline {logHTTPHandlerRequestBody}.
Arguments CaseDefault {logHTTPHandlerRequestBody}.
Arguments goSelect {logHTTPHandlerRequestBody}.
Arguments Continue {logHTTPHandlerRequestBody}.
Arguments Blocked {logHTTPHandlerRequestBody}.
Arguments Returned {logHTTPHandlerRequestBody}.
Arguments resetDeadline {logHTTPHandlerRequestBody}.
Arguments sizeFlush {logHTTPHandlerRequestBody}.
Arguments sizeTrigger {logHTTPHandlerRequestBody}.
Arguments received {logHTTPHandlerRequestBody}.
Arguments taken {logHTTPHandlerRequestBody}.
Arguments fullBatch {logHTTPHandlerRequestBody}.
Arguments bgIter {logHTTPHandlerRequestBody}.
Arguments bgStart {logHTTPHandlerRequestBody}.
Arguments bgLoop {logHTTPHandlerRequestBody}.
Arguments bgProcessor {logHTTPHandlerRequestBody}.
Arguments pump {logHTTPHandlerRequestBody}.
Arguments forward {logHTTPHandlerRequestBody}.
Arguments flushes {logHTTPHandlerRequestBody}.
Arguments errSink {logHTTPHandlerRequestBody}.
Arguments timeline {logHTTPHandlerRequestBody}.
Arguments httpAttempts {logHTTPHandlerRequestBody}.
Arguments sleeps {logHTTPHandlerRequestBody}.
Arguments deliveryEvent {logHTTPHandlerRequestBody}.
Arguments beforeAttempt {logHTTPHandlerRequestBody}.
Arguments announced {logHTTPHandlerRequestBody}.
Arguments closes {logHTTPHandlerRequestBody}.
Arguments withinBatch {logHTTPHandlerRequestBody}.
Arguments charged {logHTTPHandlerRequestBody}.

(** ** net/http as the forwarder uses it

    [http.NewRequest] wraps the *bytes.Buffer it is given as [req.Body] and
    copies its length to [req.ContentLength]; [req.WithContext] copies the
    request but not the buffer.  A round trip that gets a connection reads
    [req.Body] to its end to write the request, so the buffer is empty
    afterwards; a call that gets no connection leaves it alone.  A request
    whose Body yields fewer bytes than [ContentLength] is not written:
    the transport fails with a length error, unless the connection was an
    idle one being reused, in which case it takes a fresh body from
    [req.GetBody] and sends the request on another connection. *)

Module NetHTTP.

Inductive Outcome : Type :=
| NoConn (e : string)
| Conn (reused : bool) (answer : string + Z).

Definition lengthError (req : Request) (got : Z) : GoError :=
  ErrLib ("Post " ++ URL req ++ ": http: ContentLength="
          ++ decimal (ContentLength req)
          ++ " with Body length " ++ decimal got)%string.

Definition answerOf (a : string + Z) : GoError + Response :=
  match a with
  | inl e => inl (ErrLib e)
  | inr status => inr {| StatusCode := status |}
  end.

(** [http.DefaultClient.Do] against a network that decides, call by
    call, what happens. *)
Definition Do (net : nat -> Outcome) (k : nat) (req : Request)
    (unread : string) : (GoError + Response) * string :=
  match net k with
  | NoConn e => (inl (ErrLib e), unread)
  | Conn reused a =>
      let got := Z.of_nat (String.length unread) in
      if (got =? ContentLength req) || reused then (answerOf a, "")
      else (inl (lengthError req got), "")
  end.

End NetHTTP.

(** ** A concrete instance, for running the model *)

Module Sample.

(** Records that are their own JSON text; the empty one cannot be
    encoded. *)
Definition marshalRecord (r : string) : string + string :=
  if String.eqb r "" then inl "json: unsupported value" else inr r.

Definition urlParseError (u : string) : option string :=
  if String.eqb u ":bad" then Some "parse :bad: missing protocol scheme"
  else None.

Definition config (size interval : Z) : webhookForwarder :=
  newWebhookForwarderHandler
    {| postEndpoint := "http://hook.example/in";
       flagBatchSize := size; flagBatchInterval := interval |}.

Definition badURL : webhookForwarder :=
  newWebhookForwarderHandler
    {| postEndpoint := ":bad"; flagBatchSize := 2; flagBatchInterval := 0 |}.

(** A fresh connection each time, and always the same status. *)
Definition always (status : Z) : nat -> NetHTTP.Outcome :=
  fun _ => NetHTTP.Conn false (inr status).

(** 503 on the first call, 200 on every later one. *)
Definition recovering : nat -> NetHTTP.Outcome :=
  fun k => match k with
           | O => NetHTTP.Conn false (inr 503)
           | S _ => NetHTTP.Conn false (inr 200)
           end.

(** Nobody listens at first; from the second call on, 200. *)
Definition lateStart : nat -> NetHTTP.Outcome :=
  fun k => match k with
           | O => NetHTTP.NoConn "dial tcp: connection refused"
           | S _ => NetHTTP.Conn false (inr 200)
           end.

(** A forwarder built by hand with a retry limit below 0. *)
Definition noRetry : webhookForwarder :=
  {| endpoint := "http://hook.example/in"; batchSize := 1; batchInterval := 0;
     retrySleepInterval := 2 * Second; retryLimit := -1 |}.

(** A pass that finds a record offered and the timer fired, and takes the
    timer. *)
Definition tick : Sched := {| senderReady := true; fired := true; coin := false |}.

(** Nobody listens. *)
Definition refused : nat -> NetHTTP.Outcome :=
  fun _ => NetHTTP.NoConn "dial tcp: connection refused".

(** A client that answers every call with the same status and reads the
    body each time. *)
Definition answering (status : Z)
  : nat -> Request -> string -> (GoError + Response) * string :=
  fun _ _ _ => (inr {| StatusCode := status |}, "").

Definition world0 : World string := {| trace := []; clock := 0 |}.

Definition busy : Sched := {| senderReady := true; fired := false; coin := true |}.
Definition idle : Sched := {| senderReady := false; fired := false; coin := true |}.

Definition quiet : Ready string :=
  {| msgReady := None; timerFired := false; pick := true |}.

End Sample.

(** * Properties *)

Lemma wrap_small z : GoInt.inRange z -> GoInt.wrap z = z.
Proof.
  unfold GoInt.inRange, GoInt.minInt, GoInt.maxInt, GoInt.wrap; intros H.
  rewrite Z.mod_small; lia.
Qed.

Lemma incr_small n :
  GoInt.minInt <= n < GoInt.maxInt -> GoInt.incr n = n + 1.
Proof.
  unfold GoInt.incr; intros H; apply wrap_small.
  unfold GoInt.inRange, GoInt.minInt, GoInt.maxInt in *; lia.
Qed.

Section Reading.

Context {B : Type}.

Lemma flushes_app (a b : list (Event B)) :
  flushes (a ++ b) = flushes a ++ flushes b.
Proof.
  induction a as [|e a IH]; simpl; [reflexivity|].
  destruct e; simpl; rewrite IH; reflexivity.
Qed.

Lemma errSink_app (a b : list (Event B)) :
  errSink (a ++ b) = errSink a ++ errSink b.
Proof.
  induction a as [|e a IH]; simpl; [reflexivity|].
  destruct e; simpl; rewrite IH; reflexivity.
Qed.

Lemma timeline_app (a b : list (Event B)) :
  timeline (a ++ b) = timeline a ++ timeline b.
Proof.
  induction a as [|e a IH]; simpl; [reflexivity|].
  destruct e; simpl; rewrite IH; reflexivity.
Qed.

Lemma timeline_closes (ds : list Response) :
  timeline (map (@EvClose B) ds) = [].
Proof. induction ds; simpl; auto. Qed.

(** Delivery events are neither a flush nor a message to the sink. *)
Lemma delivery_flushes (evs : list (Event B)) :
  forallb deliveryEvent evs = true -> flushes evs = [].
Proof.
  induction evs as [|e evs IH]; simpl; [reflexivity|].
  destruct e; simpl; intros H; try discriminate; auto.
Qed.

Lemma delivery_errSink (evs : list (Event B)) :
  forallb deliveryEvent evs = true -> errSink evs = [].
Proof.
  induction evs as [|e evs IH]; simpl; [reflexivity|].
  destruct e; simpl; intros H; try discriminate; auto.
Qed.

Lemma delivery_closes (ds : list Response) :
  forallb deliveryEvent (map (@EvClose B) ds) = true.
Proof. induction ds; simpl; auto. Qed.

End Reading.

Section DeliveryClient.

Context {B : Type}.
Variable marshalRecord : B -> string + string.
Variable urlParseError : string -> option string.
Variable clientDo : nat -> Request -> string -> (GoError + Response) * string.
Variable w : webhookForwarder.

Local Abbreviation loop := (retryLoop (logHTTPHandlerRequestBody := B) clientDo w).
Local Abbreviation fwr :=
  (forwardWithRetries marshalRecord urlParseError clientDo w).
Local Abbreviation fev :=
  (forwardEvents marshalRecord urlParseError clientDo w).
Local Abbreviation answers := (attempts clientDo).
Local Abbreviation reads := (readerStates clientDo).

Lemma runDeferred_spec (ds : list Response) (st : World B) :
  runDeferred ds st
  = Some (tt, {| trace := trace st ++ map EvClose ds; clock := clock st |}).
Proof.
  revert st; induction ds as [|d ds IH]; intros st; simpl.
  - unfold ret; rewrite app_nil_r; destruct st; reflexivity.
  - unfold bind, emit; rewrite IH; simpl.
    rewrite <- app_assoc; reflexivity.
Qed.

Lemma retryLoop_step fuel req body deferred retries lastErr lastSt (st : World B) :
  retries <= retryLimit w ->
  loop (S fuel) req body deferred retries lastErr lastSt st
  = let st' := {| trace := trace st ++ beforeAttempt w retries ++ [EvDo req body];
                  clock := S (clock st) |} in
    match clientDo (clock st) req body with
    | (inl err, body') =>
        loop fuel req body' deferred (GoInt.incr retries)
          (Some (ErrWrap err "DO http client request")) lastSt st'
    | (inr res, body') =>
        if (StatusCode res >=? 200) && (StatusCode res <? 300) then
          Some ((StatusCode res, None),
                {| trace := trace st' ++ map EvClose (res :: deferred);
                   clock := clock st' |})
        else
          loop fuel req body' (res :: deferred) (GoInt.incr retries)
            (Some (ErrUnexpectedStatus (StatusCode res))) (StatusCode res) st'
    end.
Proof.
  intros Hle. cbn [retryLoop].
  destruct (Z.gtb_spec retries (retryLimit w)) as [Hgt|_]; [lia|].
  unfold beforeAttempt, bind, httpDo, logInfo, timeSleep, emit, ret.
  destruct (retries >=? 1); cbn [trace clock];
    repeat rewrite <- app_assoc; cbn [app];
    destruct (clientDo (clock st) req body) as [[err|res] body'];
    try reflexivity;
    destruct ((StatusCode res >=? 200) && (StatusCode res <? 300));
    try reflexivity;
    rewrite runDeferred_spec; reflexivity.
Qed.

Lemma retryLoop_done fuel req body deferred retries lastErr lastSt (st : World B) :
  retryLimit w < retries ->
  loop (S fuel) req body deferred retries lastErr lastSt st
  = Some ((lastSt, lastErr),
          {| trace := trace st ++ map EvClose deferred; clock := clock st |}).
Proof.
  intros Hlt. cbn [retryLoop].
  destruct (Z.gtb_spec retries (retryLimit w)) as [_|Hle]; [|lia].
  unfold bind; rewrite runDeferred_spec; reflexivity.
Qed.

Lemma beforeAttempt_delivery retries :
  forallb deliveryEvent (beforeAttempt (logHTTPHandlerRequestBody := B) w retries) = true.
Proof. unfold beforeAttempt; destruct (retries >=? 1); reflexivity. Qed.

Lemma beforeAttempt_timeline retries :
  timeline (beforeAttempt (logHTTPHandlerRequestBody := B) w retries)
  = if retries >=? 1 then [TSleep (retrySleepInterval w)] else [].
Proof. unfold beforeAttempt; destruct (retries >=? 1); reflexivity. Qed.

(** Whatever the loop does, it only adds delivery events. *)
Lemma retryLoop_frame fuel :
  forall req body deferred retries lastErr lastSt (st : World B) r st',
    loop fuel req body deferred retries lastErr lastSt st = Some (r, st') ->
    exists evs,
      trace st' = trace st ++ evs /\ forallb deliveryEvent evs = true.
Proof.
  induction fuel as [|fuel IH]; intros req body deferred retries lastErr lastSt st r st' H.
  - discriminate H.
  - destruct (Z_lt_le_dec (retryLimit w) retries) as [Hgt|Hle].
    + rewrite retryLoop_done in H by assumption.
      injection H as _ <-. eexists; split; [reflexivity|].
      apply delivery_closes.
    + rewrite retryLoop_step in H by assumption. cbv zeta in H.
      assert (Hpre : forallb deliveryEvent
                       (beforeAttempt (logHTTPHandlerRequestBody := B) w retries
                        ++ [EvDo req body]) = true).
      { rewrite forallb_app, beforeAttempt_delivery; reflexivity. }
      destruct (clientDo (clock st) req body) as [[err|res] body'].
      * apply IH in H. destruct H as (evs & Htr & Hev). cbn [trace] in Htr.
        exists ((beforeAttempt w retries ++ [EvDo req body]) ++ evs); split.
        -- rewrite Htr, <- !app_assoc; reflexivity.
        -- rewrite forallb_app, Hpre, Hev; reflexivity.
      * destruct ((StatusCode res >=? 200) && (StatusCode res <? 300)).
        -- injection H as _ <-. cbn [trace].
           exists ((beforeAttempt w retries ++ [EvDo req body])
                   ++ map EvClose (res :: deferred)); split.
           ++ rewrite <- !app_assoc; reflexivity.
           ++ rewrite forallb_app, Hpre, delivery_closes; reflexivity.
        -- apply IH in H. destruct H as (evs & Htr & Hev). cbn [trace] in Htr.
           exists ((beforeAttempt w retries ++ [EvDo req body]) ++ evs); split.
           ++ rewrite Htr, <- !app_assoc; reflexivity.
           ++ rewrite forallb_app, Hpre, Hev; reflexivity.
Qed.

(** Every call of Do in the loop is made with the one request the loop
    was given, and every sleep lasts retrySleepInterval. *)
Lemma retryLoop_regular fuel :
  forall req body deferred retries lastErr lastSt (st : World B) r st',
    loop fuel req body deferred retries lastErr lastSt st = Some (r, st') ->
    exists evs,
      trace st' = trace st ++ evs /\ Forall (regular w req) (timeline evs).
Proof.
  induction fuel as [|fuel IH]; intros req body deferred retries lastErr lastSt st r st' H.
  - discriminate H.
  - destruct (Z_lt_le_dec (retryLimit w) retries) as [Hgt|Hle].
    + rewrite retryLoop_done in H by assumption.
      injection H as _ <-. eexists; split; [reflexivity|].
      rewrite timeline_closes. constructor.
    + rewrite retryLoop_step in H by assumption. cbv zeta in H.
      assert (Hpre : Forall (regular w req)
                       (timeline (beforeAttempt (logHTTPHandlerRequestBody := B) w retries
                                  ++ [EvDo req body]))).
      { rewrite timeline_app, beforeAttempt_timeline. cbn [timeline].
        destruct (retries >=? 1); repeat constructor. }
      assert (Hrec : forall body' deferred' lastErr' lastSt',
                 loop fuel req body' deferred' (GoInt.incr retries) lastErr' lastSt'
                   {| trace := trace st ++ beforeAttempt w retries ++ [EvDo req body];
                      clock := S (clock st) |} = Some (r, st') ->
                 exists evs,
                   trace st' = trace st ++ evs
                   /\ Forall (regular w req) (timeline evs)).
      { intros body' deferred' lastErr' lastSt' Hrun.
        apply IH in Hrun. destruct Hrun as (evs & Htr & Hev). cbn [trace] in Htr.
        exists ((beforeAttempt w retries ++ [EvDo req body]) ++ evs); split.
        - rewrite Htr, <- !app_assoc; reflexivity.
        - rewrite timeline_app. apply Forall_app; split; assumption. }
      destruct (clientDo (clock st) req body) as [[err|res] body'].
      * eapply Hrec; exact H.
      * destruct ((StatusCode res >=? 200) && (StatusCode res <? 300)).
        -- injection H as _ <-. cbn [trace].
           exists ((beforeAttempt w retries ++ [EvDo req body])
                   ++ map EvClose (res :: deferred)); split.
           ++ rewrite <- !app_assoc; reflexivity.
           ++ rewrite timeline_app, timeline_closes, app_nil_r. exact Hpre.
        -- eapply Hrec; exact H.
Qed.

(** With a retry limit below the largest [int] the counter cannot wrap
    and the loop comes back. *)
Lemma retryLoop_total fuel :
  forall req body deferred retries lastErr lastSt (st : World B),
    GoInt.minInt <= retries ->
    retryLimit w < GoInt.maxInt ->
    (Z.to_nat (retryLimit w + 1 - retries) < fuel)%nat ->
    exists r st',
      loop fuel req body deferred retries lastErr lastSt st = Some (r, st').
Proof.
  induction fuel as [|fuel IH]; intros req body deferred retries lastErr lastSt st Hmin Hmax Hfuel.
  - lia.
  - destruct (Z_lt_le_dec (retryLimit w) retries) as [Hgt|Hle].
    + rewrite retryLoop_done by assumption. eauto.
    + rewrite retryLoop_step by assumption. cbv zeta.
      assert (Hincr : GoInt.incr retries = retries + 1) by (apply incr_small; lia).
      destruct (clientDo (clock st) req body) as [[err|res] body'].
      * apply IH; rewrite ?Hincr; lia.
      * destruct ((StatusCode res >=? 200) && (StatusCode res <? 300)).
        -- eauto.
        -- apply IH; rewrite ?Hincr; lia.
Qed.

Lemma lastStatus_cons start r rs :
  lastStatus start (r :: rs)
  = lastStatus (match r with inl _ => start | inr res => StatusCode res end) rs.
Proof. reflexivity. Qed.

Lemma lastError_cons start r rs :
  lastError start (r :: rs) = lastError (Some (attemptError r)) rs.
Proof. reflexivity. Qed.

(** The loop when every remaining attempt fails: [n] attempts are left,
    all are made, and the last status and the last error come back. *)
Lemma retryLoop_exhausted n :
  forall fuel req body deferred retries lastErr lastSt (st : World B),
    GoInt.minInt <= retries ->
    retries + Z.of_nat n = retryLimit w + 1 ->
    retryLimit w < GoInt.maxInt ->
    (n < fuel)%nat ->
    forallb failed (answers n (clock st) req body) = true ->
    exists evs,
      loop fuel req body deferred retries lastErr lastSt st
      = Some ((lastStatus lastSt (answers n (clock st) req body),
               lastError lastErr (answers n (clock st) req body)),
              {| trace := trace st ++ evs; clock := (clock st + n)%nat |})
      /\ timeline evs = schedule w retries (reads n (clock st) req body) req.
Proof.
  induction n as [|n IH]; intros fuel req body deferred retries lastErr lastSt st Hmin Hn Hmax Hfuel Hfail;
    (destruct fuel as [|fuel]; [lia|]).
  - rewrite retryLoop_done by lia.
    exists (map EvClose deferred); split.
    + rewrite Nat.add_0_r; reflexivity.
    + apply timeline_closes.
  - rewrite retryLoop_step by lia. cbv zeta.
    assert (Hincr : GoInt.incr retries = retries + 1) by (apply incr_small; lia).
    cbn [attempts readerStates] in *.
    destruct (clientDo (clock st) req body) as [[err|res] body'] eqn:Hdo;
      cbn [forallb snd] in Hfail; apply andb_prop in Hfail; destruct Hfail as [Hr Hrest].
    + rewrite Hincr.
      edestruct (IH fuel req body' deferred (retries + 1)
                   (Some (ErrWrap err "DO http client request")) lastSt
                   {| trace := trace st ++ beforeAttempt w retries ++ [EvDo req body];
                      clock := S (clock st) |}) as (evs & Hrun & Htl);
        [lia | lia | assumption | lia | exact Hrest | ].
      cbn [clock trace] in Hrun, Htl.
      exists ((beforeAttempt w retries ++ [EvDo req body]) ++ evs); split.
      * rewrite Hrun. rewrite lastStatus_cons, lastError_cons.
        rewrite <- !app_assoc.
        replace (clock st + S n)%nat with (S (clock st) + n)%nat by lia.
        reflexivity.
      * rewrite !timeline_app, beforeAttempt_timeline, Htl.
        cbn [schedule timeline]. rewrite <- app_assoc. reflexivity.
    + unfold failed, succeeded in Hr. apply negb_true_iff in Hr. rewrite Hr, Hincr.
      edestruct (IH fuel req body' (res :: deferred) (retries + 1)
                   (Some (ErrUnexpectedStatus (StatusCode res))) (StatusCode res)
                   {| trace := trace st ++ beforeAttempt w retries ++ [EvDo req body];
                      clock := S (clock st) |}) as (evs & Hrun & Htl);
        [lia | lia | assumption | lia | exact Hrest | ].
      cbn [clock trace] in Hrun, Htl.
      exists ((beforeAttempt w retries ++ [EvDo req body]) ++ evs); split.
      * rewrite Hrun. rewrite lastStatus_cons, lastError_cons.
        rewrite <- !app_assoc.
        replace (clock st + S n)%nat with (S (clock st) + n)%nat by lia.
        reflexivity.
      * rewrite !timeline_app, beforeAttempt_timeline, Htl.
        cbn [schedule timeline]. rewrite <- app_assoc. reflexivity.
Qed.

(** The loop when the attempt after [n] failed ones is answered with a
    status in [200,300). *)
Lemma retryLoop_success n :
  forall fuel req body deferred retries lastErr lastSt (st : World B) fails res,
    GoInt.minInt <= retries ->
    retries + Z.of_nat n <= retryLimit w ->
    retryLimit w <= GoInt.maxInt ->
    (n < fuel)%nat ->
    answers (S n) (clock st) req body = fails ++ [inr res] ->
    List.length fails = n ->
    forallb failed fails = true ->
    succeeded (inr res) = true ->
    exists evs,
      loop fuel req body deferred retries lastErr lastSt st
      = Some ((StatusCode res, None),
              {| trace := trace st ++ evs; clock := (clock st + S n)%nat |})
      /\ timeline evs = schedule w retries (reads (S n) (clock st) req body) req.
Proof.
  induction n as [|n IH];
    intros fuel req body deferred retries lastErr lastSt st fails res
           Hmin Hn Hmax Hfuel Hans Hlen Hfail Hok;
    (destruct fuel as [|fuel]; [lia|]);
    rewrite retryLoop_step by lia; cbv zeta;
    cbn [attempts readerStates] in *;
    destruct (clientDo (clock st) req body) as [r body'] eqn:Hdo; cbn [snd].
  - destruct fails; [|discriminate Hlen]. cbn [app] in Hans.
    injection Hans as ->. cbn [succeeded] in Hok. rewrite Hok.
    exists ((beforeAttempt w retries ++ [EvDo req body])
            ++ map EvClose (res :: deferred)); split.
    + cbn [trace clock]. rewrite <- !app_assoc.
      replace (clock st + 1)%nat with (S (clock st)) by lia. reflexivity.
    + rewrite !timeline_app, beforeAttempt_timeline, timeline_closes, app_nil_r.
      reflexivity.
  - destruct fails as [|f fails]; [discriminate Hlen|].
    cbn [app] in Hans. injection Hans as -> Hans.
    cbn [forallb] in Hfail. apply andb_prop in Hfail. destruct Hfail as [Hf Hfail].
    cbn [List.length] in Hlen. injection Hlen as Hlen.
    assert (Hincr : GoInt.incr retries = retries + 1) by (apply incr_small; lia).
    rewrite Hincr.
    assert (Hrec : forall deferred' lastErr' lastSt',
               exists evs,
                 loop fuel req body' deferred' (retries + 1) lastErr' lastSt'
                   {| trace := trace st ++ beforeAttempt w retries ++ [EvDo req body];
                      clock := S (clock st) |}
                 = Some ((StatusCode res, None),
                         {| trace := (trace st ++ beforeAttempt w retries
                                      ++ [EvDo req body]) ++ evs;
                            clock := (S (clock st) + S n)%nat |})
                 /\ timeline evs
                    = schedule w (retries + 1) (reads (S n) (S (clock st)) req body') req).
    { intros deferred' lastErr' lastSt'.
      apply (IH fuel req body' deferred' (retries + 1) lastErr' lastSt'
               {| trace := trace st ++ beforeAttempt w retries ++ [EvDo req body];
                  clock := S (clock st) |} fails res); try assumption; try lia. }
    assert (Hfin : forall deferred' lastErr' lastSt',
               exists evs,
                 loop fuel req body' deferred' (retries + 1) lastErr' lastSt'
                   {| trace := trace st ++ beforeAttempt w retries ++ [EvDo req body];
                      clock := S (clock st) |}
                 = Some ((StatusCode res, None),
                         {| trace := trace st ++ evs;
                            clock := (clock st + S (S n))%nat |})
                 /\ timeline evs
                    = (if retries >=? 1 then [TSleep (retrySleepInterval w)] else [])
                      ++ TDo req body
                         :: schedule w (retries + 1)
                              (body' :: reads n (S (S (clock st))) req
                                          (snd (clientDo (S (clock st)) req body'))) req).
    { intros deferred' lastErr' lastSt'.
      destruct (Hrec deferred' lastErr' lastSt') as (evs & Hrun & Htl).
      exists ((beforeAttempt w retries ++ [EvDo req body]) ++ evs); split.
      - rewrite Hrun, <- !app_assoc.
        replace (clock st + S (S n))%nat with (S (clock st) + S n)%nat by lia.
        reflexivity.
      - rewrite !timeline_app, beforeAttempt_timeline, Htl, <- app_assoc.
        reflexivity. }
    destruct f as [err|res'].
    + apply Hfin.
    + unfold failed, succeeded in Hf. apply negb_true_iff in Hf. rewrite Hf.
      apply Hfin.
Qed.

(** Past json.Marshal and http.NewRequest, the function is the loop. *)
Lemma forwardWithRetries_loop payload js (st : World B) :
  jsonText marshalRecord payload = inr js ->
  urlParseError (endpoint w) = None ->
  fwr payload st
  = loop (loopFuel w) (buildRequest w js) js [] 0 None 0
      {| trace := trace st ++ [EvMarshal payload;
                               EvNewRequest MethodPost (endpoint w)];
         clock := clock st |}.
Proof.
  intros Hjs Hurl.
  unfold forwardWithRetries, jsonMarshal, httpNewRequest, bind, emit, ret.
  rewrite Hjs. cbn [trace clock]. rewrite Hurl, <- app_assoc. reflexivity.
Qed.

(** What every attempt has of the wire format: POST, the endpoint, the
    Content-Type header and the length of the body.  What the body reader
    still holds is another matter. *)
Lemma forwardWithRetries_posts payload js (st : World B) r st' :
  jsonText marshalRecord payload = inr js ->
  urlParseError (endpoint w) = None ->
  fwr payload st = Some (r, st') ->
  let req := buildRequest w js in
  Method req = "POST"
  /\ URL req = endpoint w
  /\ Header req = [("Content-Type", "application/json")]
  /\ ContentLength req = Z.of_nat (String.length js)
  /\ exists evs,
       trace st' = trace st ++ evs /\ Forall (regular w req) (timeline evs).
Proof.
  intros Hjs Hurl Hrun req.
  repeat (split; [reflexivity|]).
  rewrite (forwardWithRetries_loop _ _ _ Hjs Hurl) in Hrun.
  apply retryLoop_regular in Hrun. destruct Hrun as (evs & Htr & Hev).
  cbn [trace] in Htr.
  exists ([EvMarshal payload; EvNewRequest MethodPost (endpoint w)] ++ evs); split.
  - rewrite Htr, <- app_assoc; reflexivity.
  - rewrite timeline_app. exact Hev.
Qed.

Lemma schedule_attempts retries rds req :
  List.length (filter isDo (schedule w retries rds req)) = List.length rds.
Proof.
  revert retries; induction rds as [|b rds IH]; intros retries; cbn [schedule].
  - reflexivity.
  - rewrite filter_app. cbn [filter isDo]. rewrite length_app. cbn [List.length].
    rewrite IH. destruct (retries >=? 1); reflexivity.
Qed.

Lemma schedule_sleeps_later retries rds req :
  1 <= retries ->
  List.length (filter (fun t => negb (isDo t)) (schedule w retries rds req))
  = List.length rds.
Proof.
  revert retries; induction rds as [|b rds IH]; intros retries Hr; cbn [schedule].
  - reflexivity.
  - destruct (Z.geb_spec retries 1) as [_|Hlt]; [|lia].
    cbn [app filter isDo negb List.length]. rewrite IH by lia. reflexivity.
Qed.

Lemma schedule_sleeps_first b rds req :
  List.length (filter (fun t => negb (isDo t)) (schedule w 0 (b :: rds) req))
  = List.length rds.
Proof.
  cbn [schedule]. cbn. apply schedule_sleeps_later. lia.
Qed.

Lemma readerStates_length n k req body :
  List.length (reads n k req body) = n.
Proof.
  revert k body; induction n as [|n IH]; intros k body; cbn [readerStates List.length].
  - reflexivity.
  - rewrite IH; reflexivity.
Qed.

Lemma schedule_ends_with_attempt rds :
  forall retries req, rds <> [] ->
    exists before b, schedule w retries rds req = before ++ [TDo req b].
Proof.
  induction rds as [|b rds IH]; intros retries req Hne; [congruence|].
  destruct rds as [|b' rds].
  - exists (if retries >=? 1 then [TSleep (retrySleepInterval w)] else []), b.
    reflexivity.
  - destruct (IH (retries + 1) req) as (before & b0 & Hs); [discriminate|].
    exists ((if retries >=? 1 then [TSleep (retrySleepInterval w)] else [])
            ++ TDo req b :: before), b0.
    change (schedule w retries (b :: b' :: rds) req)
      with ((if retries >=? 1 then [TSleep (retrySleepInterval w)] else [])
            ++ TDo req b :: schedule w (retries + 1) (b' :: rds) req).
    rewrite Hs, <- app_assoc. reflexivity.
Qed.

(** C1. With retryLimit = 3 and every attempt failing (a transport
    error or a status outside [200,300)), forwardWithRetries calls Do
    exactly four times, sleeps retrySleepInterval before the second,
    third and fourth call and not before the first, and returns the
    status of the last attempt that had a response (0 when none had)
    with the error of the fourth attempt. *)
Theorem forwardWithRetries_exhausted payload js (st : World B) :
  retryLimit w = 3 ->
  jsonText marshalRecord payload = inr js ->
  urlParseError (endpoint w) = None ->
  forallb failed (answers 4 (clock st) (buildRequest w js) js) = true ->
  let req := buildRequest w js in
  let d := retrySleepInterval w in
  exists evs r1 r2 r3 r4 b2 b3 b4,
    answers 4 (clock st) req js = [r1; r2; r3; r4]
    /\ fwr payload st
       = Some ((lastStatus 0 [r1; r2; r3; r4], Some (attemptError r4)),
               {| trace := trace st ++ evs; clock := (clock st + 4)%nat |})
    /\ timeline evs
       = [TDo req js; TSleep d; TDo req b2; TSleep d; TDo req b3;
          TSleep d; TDo req b4]
    /\ httpAttempts evs = 4%nat
    /\ sleeps evs = 3%nat
    /\ lastStatus 0 [r1; r2; r3; r4]
       = match r4, r3, r2, r1 with
         | inr res, _, _, _ => StatusCode res
         | inl _, inr res, _, _ => StatusCode res
         | inl _, inl _, inr res, _ => StatusCode res
         | inl _, inl _, inl _, inr res => StatusCode res
         | inl _, inl _, inl _, inl _ => 0
         end.
Proof.
  intros Hlim Hjs Hurl Hfail req d. subst req d.
  rewrite (forwardWithRetries_loop _ _ _ Hjs Hurl).
  set (req := buildRequest w js) in *.
  destruct (retryLoop_exhausted 4 (loopFuel w) req js [] 0 None 0
              {| trace := trace st ++ [EvMarshal payload;
                                       EvNewRequest MethodPost (endpoint w)];
                 clock := clock st |}) as (evs & Hrun & Htl).
  - unfold GoInt.minInt; lia.
  - rewrite Hlim; reflexivity.
  - rewrite Hlim; unfold GoInt.maxInt; lia.
  - unfold loopFuel; rewrite Hlim; cbn; lia.
  - exact Hfail.
  - cbn [clock trace] in Hrun, Htl.
    cbn [attempts readerStates] in *.
    destruct (clientDo (clock st) req js) as [r1 b2]; cbn [snd] in *.
    destruct (clientDo (S (clock st)) req b2) as [r2 b3]; cbn [snd] in *.
    destruct (clientDo (S (S (clock st))) req b3) as [r3 b4]; cbn [snd] in *.
    destruct (clientDo (S (S (S (clock st)))) req b4) as [r4 b5]; cbn [snd] in *.
    cbn in Htl.
    exists ([EvMarshal payload; EvNewRequest MethodPost (endpoint w)] ++ evs),
      r1, r2, r3, r4, b2, b3, b4.
    split; [reflexivity|].
    split; [rewrite Hrun, <- app_assoc; reflexivity|].
    split; [rewrite timeline_app, Htl; reflexivity|].
    split; [unfold httpAttempts; rewrite timeline_app, Htl; reflexivity|].
    split; [unfold sleeps; rewrite timeline_app, Htl; reflexivity|].
    destruct r1, r2, r3, r4; reflexivity.
Qed.

(** C4. When the attempt that follows [n] failed ones is answered with
    a status in [200,300), forwardWithRetries returns that status and no
    error; that attempt is the last step of the batch: [n + 1] calls of
    Do and [n] sleeps were made, whatever the retry limit still allowed. *)
Theorem forwardWithRetries_success payload js (st : World B) n fails res :
  jsonText marshalRecord payload = inr js ->
  urlParseError (endpoint w) = None ->
  Z.of_nat n <= retryLimit w ->
  retryLimit w <= GoInt.maxInt ->
  answers (S n) (clock st) (buildRequest w js) js = fails ++ [inr res] ->
  List.length fails = n ->
  forallb failed fails = true ->
  200 <= StatusCode res < 300 ->
  exists evs before b,
    fwr payload st
    = Some ((StatusCode res, None),
            {| trace := trace st ++ evs; clock := (clock st + S n)%nat |})
    /\ timeline evs = before ++ [TDo (buildRequest w js) b]
    /\ httpAttempts evs = S n
    /\ sleeps evs = n.
Proof.
  intros Hjs Hurl Hn Hmax Hans Hlen Hfail Hok.
  rewrite (forwardWithRetries_loop _ _ _ Hjs Hurl).
  set (req := buildRequest w js) in *.
  destruct (retryLoop_success n (loopFuel w) req js [] 0 None 0
              {| trace := trace st ++ [EvMarshal payload;
                                       EvNewRequest MethodPost (endpoint w)];
                 clock := clock st |} fails res) as (evs & Hrun & Htl);
    try assumption.
  - unfold GoInt.minInt; lia.
  - unfold loopFuel; lia.
  - cbn [succeeded]. apply andb_true_intro; split.
    + apply Z.geb_le; lia.
    + apply Z.ltb_lt; lia.
  - cbn [clock trace] in Hrun, Htl.
    destruct (schedule_ends_with_attempt (reads (S n) (clock st) req js) 0 req)
      as (before & b & Hlast); [discriminate|].
    exists ([EvMarshal payload; EvNewRequest MethodPost (endpoint w)] ++ evs),
      before, b.
    split; [rewrite Hrun, <- app_assoc; reflexivity|].
    split; [rewrite timeline_app, Htl, Hlast; reflexivity|].
    split.
    + unfold httpAttempts. rewrite timeline_app, Htl. cbn [timeline app].
      rewrite schedule_attempts. apply readerStates_length.
    + unfold sleeps. rewrite timeline_app, Htl. cbn [timeline app].
      cbn [readerStates]. rewrite schedule_sleeps_first.
      apply readerStates_length.
Qed.

Lemma marshal_failure_run payload (st : World B) e :
  jsonText marshalRecord payload = inl e ->
  fwr payload st
  = Some ((0, Some (ErrWrap e "marshal")),
          {| trace := trace st ++ [EvMarshal payload]; clock := clock st |}).
Proof.
  intros He. unfold forwardWithRetries, jsonMarshal, bind, emit, ret.
  rewrite He. reflexivity.
Qed.

Lemma request_failure_run payload (st : World B) js e :
  jsonText marshalRecord payload = inr js ->
  urlParseError (endpoint w) = Some e ->
  fwr payload st
  = Some ((0, Some (ErrWrap (ErrLib e) "new HTTP request")),
          {| trace := trace st ++ [EvMarshal payload;
                                   EvNewRequest MethodPost (endpoint w)];
             clock := clock st |}).
Proof.
  intros Hjs He.
  unfold forwardWithRetries, jsonMarshal, httpNewRequest, bind, emit, ret.
  rewrite Hjs. cbn [trace clock]. rewrite He, <- app_assoc. reflexivity.
Qed.

(** C5. A batch that json.Marshal rejects, and a batch whose request
    http.NewRequest cannot build, make forwardWithRetries return at once
    with status 0 and the error: no call of Do, no sleep. *)
Theorem forwardWithRetries_fatal payload (st : World B) :
  (forall e, jsonText marshalRecord payload = inl e ->
     exists evs,
       fwr payload st
       = Some ((0, Some (ErrWrap e "marshal")),
               {| trace := trace st ++ evs; clock := clock st |})
       /\ httpAttempts evs = 0%nat /\ sleeps evs = 0%nat)
  /\ (forall js e, jsonText marshalRecord payload = inr js ->
        urlParseError (endpoint w) = Some e ->
        exists evs,
          fwr payload st
          = Some ((0, Some (ErrWrap (ErrLib e) "new HTTP request")),
                  {| trace := trace st ++ evs; clock := clock st |})
          /\ httpAttempts evs = 0%nat /\ sleeps evs = 0%nat).
Proof.
  split.
  - intros e He. exists [EvMarshal payload].
    rewrite (marshal_failure_run _ _ _ He). repeat split.
  - intros js e Hjs He.
    exists [EvMarshal payload; EvNewRequest MethodPost (endpoint w)].
    rewrite (request_failure_run _ _ _ _ Hjs He). repeat split.
Qed.

Lemma bind_Some {A C} (m : M B A) (k : A -> M B C) st r :
  bind m k st = Some r ->
  exists a st', m st = Some (a, st') /\ k a st' = Some r.
Proof.
  unfold bind. destruct (m st) as [[a st']|]; [eauto|discriminate].
Qed.

(** forwardWithRetries starts with json.Marshal of the batch and adds
    nothing but delivery events after it. *)
Lemma forwardWithRetries_frame payload (st : World B) r st' :
  fwr payload st = Some (r, st') ->
  exists evs,
    trace st' = trace st ++ EvMarshal payload :: evs
    /\ forallb deliveryEvent evs = true.
Proof.
  unfold forwardWithRetries, jsonMarshal, httpNewRequest, bind, emit, ret.
  destruct (jsonText marshalRecord payload) as [e|js]; cbn [trace clock].
  - intros H; injection H as _ <-. exists []; split; reflexivity.
  - destruct (urlParseError (endpoint w)) as [e|].
    + intros H; injection H as _ <-. cbn [trace].
      exists [EvNewRequest MethodPost (endpoint w)]; split; [|reflexivity].
      rewrite <- app_assoc; reflexivity.
    + intros H. apply retryLoop_frame in H. destruct H as (evs & Htr & Hev).
      cbn [trace] in Htr.
      exists (EvNewRequest MethodPost (endpoint w) :: evs); split.
      * rewrite Htr, <- !app_assoc; reflexivity.
      * cbn [forallb deliveryEvent]; exact Hev.
Qed.

Lemma forwardWithRetries_total payload (st : World B) :
  retryLimit w < GoInt.maxInt ->
  exists r st', fwr payload st = Some (r, st').
Proof.
  intros Hmax.
  unfold forwardWithRetries, jsonMarshal, httpNewRequest, bind, emit, ret.
  destruct (jsonText marshalRecord payload) as [e|js]; cbn [trace clock]; [eauto|].
  destruct (urlParseError (endpoint w)) as [e|]; [eauto|].
  apply retryLoop_total; try assumption.
  - unfold GoInt.minInt; lia.
  - unfold loopFuel; lia.
Qed.

Lemma forwardEvents_empty payload byInterval (st : World B) :
  len payload = 0 -> fev payload byInterval st = Some (tt, st).
Proof.
  intros H. unfold forwardEvents. rewrite H. reflexivity.
Qed.

Lemma forwardEvents_nonempty payload byInterval (st : World B) :
  len payload <> 0 ->
  fev payload byInterval st
  = match fwr payload (announced w byInterval st) with
    | Some ((_, Some err), st') =>
        Some (tt, {| trace := trace st'
                              ++ [EvErrCh (ErrWrap err "forward with retries exhausted")];
                     clock := clock st' |})
    | Some ((statusCode, None), st') =>
        Some (tt, {| trace := trace st'
                              ++ [EvLog "webhook request success"
                                    [("http_status_code", statusCode);
                                     ("batch_size", len payload)]];
                     clock := clock st' |})
    | None => None
    end.
Proof.
  intros H. unfold forwardEvents, announced.
  destruct (Z.eqb_spec (len payload) 0) as [E|_]; [contradiction|].
  unfold bind, logInfo, emit, ret.
  destruct byInterval;
    match goal with
    | |- match ?x with _ => _ end = _ => destruct x as [[[sc [err|]] st']|]
    end; reflexivity.
Qed.

(** forwardEvents hands at most its own batch to forwardWithRetries, and
    only a batch with records in it. *)
Lemma forwardEvents_frame payload byInterval (st st' : World B) :
  fev payload byInterval st = Some (tt, st') ->
  exists evs,
    trace st' = trace st ++ evs
    /\ flushes evs = if len payload =? 0 then [] else [elems payload].
Proof.
  destruct (Z.eqb_spec (len payload) 0) as [E|E].
  - rewrite forwardEvents_empty by assumption. intros H; injection H as <-.
    exists []; split; [rewrite app_nil_r|]; reflexivity.
  - rewrite forwardEvents_nonempty by assumption.
    destruct (fwr payload (announced w byInterval st)) as [[[sc oerr] st1]|] eqn:Hrun;
      [|discriminate].
    apply forwardWithRetries_frame in Hrun. destruct Hrun as (evs & Htr & Hev).
    assert (Hann : exists pre, trace (announced w byInterval st) = trace st ++ pre
                               /\ flushes pre = []).
    { unfold announced; destruct byInterval; cbn [trace].
      - eexists; split; reflexivity.
      - exists []; split; [rewrite app_nil_r|]; reflexivity. }
    destruct Hann as (pre & Hpre & Hfl).
    assert (Hout : forall e : Event B,
               flushes [e] = [] ->
               exists evs0,
                 (trace st1 ++ [e] = trace st ++ evs0)
                 /\ flushes evs0 = [elems payload]).
    { intros e He. exists (pre ++ EvMarshal payload :: evs ++ [e]); split.
      - rewrite Htr, Hpre, <- !app_assoc. reflexivity.
      - rewrite flushes_app, Hfl. cbn [flushes app].
        rewrite flushes_app, (delivery_flushes _ Hev), He. reflexivity. }
    destruct oerr as [err|]; intros H; injection H as <-; cbn [trace];
      apply Hout; reflexivity.
Qed.

Lemma forwardEvents_total payload byInterval (st : World B) :
  retryLimit w < GoInt.maxInt ->
  exists st', fev payload byInterval st = Some (tt, st').
Proof.
  intros Hmax. destruct (Z.eqb_spec (len payload) 0) as [E|E].
  - rewrite forwardEvents_empty by assumption. eauto.
  - rewrite forwardEvents_nonempty by assumption.
    destruct (forwardWithRetries_total payload (announced w byInterval st) Hmax)
      as ([sc [err|]] & st1 & ->); eauto.
Qed.

Lemma announced_quiet byInterval (st : World B) :
  errSink (trace (announced w byInterval st)) = errSink (trace st)
  /\ clock (announced w byInterval st) = clock st.
Proof.
  unfold announced; destruct byInterval; cbn [trace clock]; split;
    try reflexivity.
  rewrite errSink_app; cbn [errSink]; apply app_nil_r.
Qed.

(** C6, as the code has it.  forwardEvents sends to the error sink every
    error forwardWithRetries returns, wrapped with the context
    [forward with retries exhausted], whatever its class: an error of
    json.Marshal and an error of http.NewRequest arrive wrapped like the
    last error of an exhausted retry loop, and before any call of Do.
    When forwardWithRetries returns no error nothing is sent. *)
Theorem forwardEvents_error_sink payload byInterval (st : World B) :
  len payload <> 0 ->
  (forall status oerr st1,
     fwr payload (announced w byInterval st) = Some ((status, oerr), st1) ->
     exists st',
       fev payload byInterval st = Some (tt, st')
       /\ errSink (trace st')
          = errSink (trace st)
            ++ match oerr with
               | Some err => [ErrWrap err "forward with retries exhausted"]
               | None => []
               end
       /\ clock st' = clock st1)
  /\ (forall e,
        jsonText marshalRecord payload = inl e ->
        exists st',
          fev payload byInterval st = Some (tt, st')
          /\ errSink (trace st')
             = errSink (trace st)
               ++ [ErrWrap (ErrWrap e "marshal") "forward with retries exhausted"]
          /\ clock st' = clock st)
  /\ (forall js e,
        jsonText marshalRecord payload = inr js ->
        urlParseError (endpoint w) = Some e ->
        exists st',
          fev payload byInterval st = Some (tt, st')
          /\ errSink (trace st')
             = errSink (trace st)
               ++ [ErrWrap (ErrWrap (ErrLib e) "new HTTP request")
                     "forward with retries exhausted"]
          /\ clock st' = clock st).
Proof.
  intros Hlen.
  assert (Hgen : forall status oerr st1,
             fwr payload (announced w byInterval st) = Some ((status, oerr), st1) ->
             exists st',
               fev payload byInterval st = Some (tt, st')
               /\ errSink (trace st')
                  = errSink (trace st)
                    ++ match oerr with
                       | Some err => [ErrWrap err "forward with retries exhausted"]
                       | None => []
                       end
               /\ clock st' = clock st1).
  { intros status oerr st1 Hrun.
    rewrite forwardEvents_nonempty, Hrun by assumption.
    apply forwardWithRetries_frame in Hrun. destruct Hrun as (evs & Htr & Hev).
    destruct (announced_quiet byInterval st) as [Hsink _].
    assert (Hs1 : errSink (trace st1) = errSink (trace st)).
    { rewrite Htr, errSink_app, Hsink. cbn [errSink].
      rewrite (delivery_errSink _ Hev). apply app_nil_r. }
    destruct oerr as [err|]; eexists; (split; [reflexivity|]); cbn [trace clock];
      rewrite errSink_app, Hs1; cbn [errSink]; split; reflexivity. }
  split; [exact Hgen|]. split.
  - intros e He.
    pose proof (marshal_failure_run payload (announced w byInterval st) e He)
      as Hrun.
    destruct (Hgen _ _ _ Hrun) as (st' & Hfev & Hsink & Hclock).
    exists st'. split; [exact Hfev|]. split; [exact Hsink|].
    rewrite Hclock. cbn [clock]. apply announced_quiet.
  - intros js e Hjs He.
    pose proof (request_failure_run payload (announced w byInterval st) js e
                  Hjs He) as Hrun.
    destruct (Hgen _ _ _ Hrun) as (st' & Hfev & Hsink & Hclock).
    exists st'. split; [exact Hfev|]. split; [exact Hsink|].
    rewrite Hclock. cbn [clock]. apply announced_quiet.
Qed.

(** *** The accumulator *)

Local Abbreviation reset := (resetDeadline (logHTTPHandlerRequestBody := B) w).
Local Abbreviation iter := (bgIter marshalRecord urlParseError clientDo w).
Local Abbreviation bgloop := (bgLoop marshalRecord urlParseError clientDo w).
Local Abbreviation pumping := (pump marshalRecord urlParseError clientDo w).

Lemma resetDeadline_run dl (st : World B) :
  exists dl' st',
    reset dl st = Some (dl', st')
    /\ flushes (trace st') = flushes (trace st)
    /\ (dl = None -> batchInterval w <= 0 -> dl' = None)
    /\ (batchInterval w <= 0 -> st' = st).
Proof.
  unfold resetDeadline, timeAfter, bind, emit, ret.
  destruct (Z.gtb_spec (batchInterval w) 0) as [Hpos|Hle].
  - do 2 eexists; split; [reflexivity|]. cbn [trace]. split; [|split; lia].
    rewrite flushes_app; cbn [flushes]; apply app_nil_r.
  - do 2 eexists; split; [reflexivity|]. repeat split; auto.
Qed.

(** A flush followed by the re-arming of the timer, as both the size
    check and the deadline case do it. *)
Lemma flush_then_reset {A} payload byInterval dl (f : option Z -> A)
    (st : World B) r st' :
  bind (fev payload byInterval)
    (fun _ => bind (reset dl) (fun dl' => ret (f dl'))) st = Some (r, st') ->
  exists dl',
    r = f dl'
    /\ flushes (trace st')
       = flushes (trace st) ++ (if len payload =? 0 then [] else [elems payload])
    /\ (dl = None -> batchInterval w <= 0 -> dl' = None).
Proof.
  intros H. apply bind_Some in H. destruct H as ([] & st1 & Hfev & H).
  apply forwardEvents_frame in Hfev. destruct Hfev as (evs & Htr & Hfl).
  apply bind_Some in H. destruct H as (dl' & st2 & Hreset & H).
  destruct (resetDeadline_run dl st1) as (dl0 & st0 & Hrun & Hflr & Hnone & _).
  rewrite Hrun in Hreset. injection Hreset as <- <-.
  unfold ret in H. injection H as <- <-.
  exists dl0. split; [reflexivity|]. split; [|exact Hnone].
  rewrite Hflr, Htr, flushes_app, Hfl. reflexivity.
Qed.

Lemma flush_then_reset_total {A} payload byInterval dl (f : option Z -> A)
    (st : World B) :
  retryLimit w < GoInt.maxInt ->
  exists r st',
    bind (fev payload byInterval)
      (fun _ => bind (reset dl) (fun dl' => ret (f dl'))) st = Some (r, st').
Proof.
  intros Hmax. unfold bind.
  destruct (forwardEvents_total payload byInterval st Hmax) as (st1 & ->).
  destruct (resetDeadline_run dl st1) as (dl0 & st0 & -> & _).
  unfold ret. eauto.
Qed.

Lemma elems_nonempty (payload : slice B) :
  len payload <> 0 -> elems payload <> [].
Proof.
  unfold len. destruct (elems payload); cbn; [congruence|discriminate].
Qed.

(** One pass of the loop always goes back to its head, and every batch
    it hands over has records in it. *)
Lemma bgIter_frame rd st (wd : World B) c took wd' :
  iter rd st wd = Some ((c, took), wd') ->
  (exists st', c = Continue st')
  /\ exists fl,
       flushes (trace wd') = flushes (trace wd) ++ fl
       /\ Forall (fun b => b <> []) fl.
Proof.
  assert (Hone : forall payload : slice B,
             Forall (fun b => b <> [])
               (if len payload =? 0 then [] else [elems payload])).
  { intros payload. destruct (Z.eqb_spec (len payload) 0) as [E|E].
    - constructor.
    - constructor; [apply elems_nonempty; assumption|constructor]. }
  unfold bgIter. intros H.
  apply bind_Some in H. destruct H as (st1 & wd1 & Hsize & H).
  assert (Hfl1 : exists fl1,
             flushes (trace wd1) = flushes (trace wd) ++ fl1
             /\ Forall (fun b => b <> []) fl1).
  { unfold sizeFlush in Hsize.
    destruct (sizeTrigger w st).
    - apply flush_then_reset
        with (f := fun dl => {| eventsPayload := nilSlice; deadline := dl |})
        in Hsize.
      destruct Hsize as (dl' & _ & Hfl & _). eexists; split; [exact Hfl|apply Hone].
    - unfold ret in Hsize. injection Hsize as <- <-.
      exists []; split; [rewrite app_nil_r; reflexivity|constructor]. }
  destruct Hfl1 as (fl1 & Hfl1 & Hne1).
  destruct (goSelect true (msgReady rd)
              (chanReady (deadline st1) (timerFired rd)) (pick rd))
    as [[ep| |]|] eqn:Hsel.
  - unfold ret in H. injection H as <- <- <-.
    split; [eauto|]. exists fl1; auto.
  - apply flush_then_reset
      with (f := fun dl => (Continue {| eventsPayload := nilSlice; deadline := dl |},
                             false)) in H.
    destruct H as (dl' & Hr & Hfl & _). injection Hr as -> ->.
    split; [eauto|].
    eexists; split.
    + rewrite Hfl, Hfl1, <- app_assoc. reflexivity.
    + apply Forall_app; split; [assumption|apply Hone].
  - unfold ret in H. injection H as <- <- <-.
    split; [eauto|]. exists fl1; auto.
  - unfold goSelect in Hsel.
    destruct (msgReady rd), (chanReady (deadline st1) (timerFired rd));
      discriminate.
Qed.

Lemma bgStart_run (wd : World B) :
  exists dl wd0,
    bgStart w wd = Some ({| eventsPayload := mkSlice []; deadline := dl |}, wd0)
    /\ flushes (trace wd0) = flushes (trace wd)
    /\ (batchInterval w <= 0 -> dl = None /\ wd0 = wd).
Proof.
  unfold bgStart, timeAfter, bind, emit, ret.
  destruct (Z.gtb_spec (batchInterval w) 0) as [Hpos|Hle].
  - do 2 eexists; split; [reflexivity|]. cbn [trace]. split; [|lia].
    rewrite flushes_app; cbn [flushes]; apply app_nil_r.
  - do 2 eexists; split; [reflexivity|]. split; auto.
Qed.

Lemma pump_frame scheds :
  forall stream st (wd : World B) c rest wd',
    pumping scheds stream st wd = Some ((c, rest), wd') ->
    (exists st', c = Continue st')
    /\ exists fl,
         flushes (trace wd') = flushes (trace wd) ++ fl
         /\ Forall (fun b => b <> []) fl.
Proof.
  induction scheds as [|s scheds IH]; intros stream st wd c rest wd' H; cbn [pump] in H.
  - unfold ret in H. injection H as <- <- <-.
    split; [eauto|]. exists []; split; [rewrite app_nil_r; reflexivity|constructor].
  - apply bind_Some in H. destruct H as ([c1 took] & wd1 & Hiter & H).
    destruct (bgIter_frame _ _ _ _ _ _ Hiter) as ((st1 & ->) & fl1 & Hfl1 & Hne1).
    apply IH in H. destruct H as (Hc & fl2 & Hfl2 & Hne2).
    split; [exact Hc|].
    exists (fl1 ++ fl2); split.
    + rewrite Hfl2, Hfl1, <- app_assoc. reflexivity.
    + apply Forall_app; split; assumption.
Qed.

Lemma bgLoop_frame rds :
  forall st (wd : World B) c wd',
    bgloop rds st wd = Some (c, wd') -> exists st', c = Continue st'.
Proof.
  induction rds as [|rd rds IH]; intros st wd c wd' H; cbn [bgLoop] in H.
  - unfold ret in H. injection H as <- <-. eauto.
  - apply bind_Some in H. destruct H as ([c1 took] & wd1 & Hiter & H).
    destruct (bgIter_frame _ _ _ _ _ _ Hiter) as ((st1 & ->) & _).
    eapply IH; exact H.
Qed.

(** A pass that finds nothing to do: no size trigger, nothing offered on
    [msg], no timer that has fired.  The select takes its default case
    and the pass ends where it began. *)
Lemma bgIter_idle rd st (wd : World B) :
  sizeTrigger w st = false ->
  msgReady rd = None ->
  chanReady (deadline st) (timerFired rd) = false ->
  iter rd st wd = Some ((Continue st, false), wd).
Proof.
  intros Hsize Hmsg Hdl. unfold bgIter, sizeFlush, bind, ret.
  rewrite Hsize, Hmsg, Hdl. reflexivity.
Qed.

Lemma bgLoop_idle rds :
  forall st (wd : World B),
    sizeTrigger w st = false ->
    Forall (fun rd => msgReady rd = None
                      /\ chanReady (deadline st) (timerFired rd) = false) rds ->
    bgloop rds st wd = Some (Continue st, wd).
Proof.
  induction rds as [|rd rds IH]; intros st wd Hsize Hall; cbn [bgLoop].
  - reflexivity.
  - inversion Hall as [|? ? [Hmsg Hdl] Hrest]; subst.
    unfold bind. rewrite bgIter_idle by assumption. apply IH; assumption.
Qed.

Lemma pump_closed scheds :
  forall st (wd : World B),
    sizeTrigger w st = false ->
    Forall (fun s => chanReady (deadline st) (fired s) = false) scheds ->
    pumping scheds [] st wd = Some ((Continue st, []), wd).
Proof.
  induction scheds as [|s scheds IH]; intros st wd Hsize Hall; cbn [pump].
  - reflexivity.
  - inversion Hall as [|? ? Hdl Hrest]; subst.
    unfold bind. rewrite bgIter_idle; cbn [msgReady timerFired]; try assumption.
    + apply IH; assumption.
    + destruct (senderReady s); reflexivity.
Qed.

(** *** Flushing by size alone *)

Section BySize.

Variable N : Z.
Hypothesis Hsize : batchSize w = N.
Hypothesis Hpos : 0 < N.
Hypothesis Hinterval : batchInterval w = 0.
Hypothesis Hlimit : retryLimit w < GoInt.maxInt.

Local Abbreviation full := (fullBatch (logHTTPHandlerRequestBody := B) N).

(** One pass: a buffer that has reached [N] is flushed whole, then the
    offered record, if any, starts or extends the buffer. *)
Lemma bgIter_by_size offer fd pk buf (wd : World B) :
  len buf <= N ->
  exists buf' wd' fl,
    iter {| msgReady := offer; timerFired := fd; pick := pk |}
      {| eventsPayload := buf; deadline := None |} wd
    = Some ((Continue {| eventsPayload := buf'; deadline := None |},
             taken offer), wd')
    /\ flushes (trace wd') = flushes (trace wd) ++ fl
    /\ elems buf ++ received offer = List.concat fl ++ elems buf'
    /\ Forall full fl
    /\ len buf' <= N
    /\ (offer = None -> len buf' < N).
Proof.
  intros Hlen. unfold bgIter.
  assert (Hhead : exists buf1 wd1 fl,
             sizeFlush marshalRecord urlParseError clientDo w
               {| eventsPayload := buf; deadline := None |} wd
             = Some ({| eventsPayload := buf1; deadline := None |}, wd1)
             /\ flushes (trace wd1) = flushes (trace wd) ++ fl
             /\ elems buf = List.concat fl ++ elems buf1
             /\ Forall full fl
             /\ len buf1 < N).
  { unfold sizeFlush, sizeTrigger. cbn [eventsPayload deadline].
    rewrite Hsize.
    destruct (Z.gtb_spec N 0) as [_|Hn]; [|lia]. cbn [andb].
    destruct (Z.geb_spec (len buf) N) as [Hge|Hlt].
    - destruct (flush_then_reset_total buf false None
                  (fun dl => {| eventsPayload := @nilSlice B; deadline := dl |})
                  wd Hlimit) as (r & wd1 & Hrun).
      destruct (flush_then_reset _ _ _ _ _ _ _ Hrun) as (dl' & -> & Hfl & Hdl).
      rewrite (Hdl eq_refl) in Hrun by lia.
      exists nilSlice, wd1, [elems buf]. split; [exact Hrun|].
      destruct (Z.eqb_spec (len buf) 0) as [E|_]; [lia|].
      split; [exact Hfl|]. cbn [List.concat elems]. rewrite !app_nil_r.
      split; [reflexivity|]. split.
      + apply Forall_cons; [|apply Forall_nil].
        unfold fullBatch. unfold len in Hlen, Hge. lia.
      + unfold len; cbn; lia.
    - exists buf, wd, []. unfold ret. split; [reflexivity|].
      rewrite app_nil_r. repeat split; auto. }
  destruct Hhead as (buf1 & wd1 & fl & Hrun & Hfl & Hel & Hfull & Hlt).
  unfold bind. rewrite Hrun. cbn [deadline eventsPayload chanReady msgReady timerFired pick].
  destruct offer as [ep|]; cbn [goSelect received taken]; unfold ret.
  - exists (append buf1 ep), wd1, fl. split; [reflexivity|].
    split; [exact Hfl|]. split; [|split; [exact Hfull|split]].
    + rewrite Hel. cbn [append elems]. rewrite app_assoc. reflexivity.
    + unfold len in *. cbn [append elems]. rewrite length_app. cbn [List.length]. lia.
    + discriminate.
  - exists buf1, wd1, fl. split; [reflexivity|].
    split; [exact Hfl|]. rewrite app_nil_r.
    repeat split; auto. lia.
Qed.

(** The stream a pass leaves to the next one. *)
Lemma offer_split (ready : bool) (stream : list B) (c : nat) :
  let offer := if ready then hd_error stream else None in
  let stream1 := if taken offer then tl stream else stream in
  skipn c stream1 = skipn ((if ready then 1 else 0) + c) stream
  /\ received offer ++ firstn c stream1
     = firstn ((if ready then 1 else 0) + c) stream.
Proof.
  destruct ready; [|split; reflexivity].
  destruct stream as [|x stream]; cbn.
  - rewrite skipn_nil, firstn_nil. split; reflexivity.
  - split; reflexivity.
Qed.

Lemma offered_cons s scheds :
  offered (s :: scheds)
  = ((if senderReady s then 1 else 0) + offered scheds)%nat.
Proof.
  unfold offered. cbn [filter]. destruct (senderReady s); reflexivity.
Qed.

(** Any number of passes: what was flushed, in order, followed by what
    is still buffered, is what was received; every flush is a batch of
    exactly [N] records. *)
Lemma pump_by_size scheds :
  forall stream buf (wd : World B),
    len buf <= N ->
    exists buf' wd' fl,
      pumping scheds stream {| eventsPayload := buf; deadline := None |} wd
      = Some ((Continue {| eventsPayload := buf'; deadline := None |},
               skipn (offered scheds) stream), wd')
      /\ flushes (trace wd') = flushes (trace wd) ++ fl
      /\ elems buf ++ firstn (offered scheds) stream
         = List.concat fl ++ elems buf'
      /\ Forall full fl
      /\ len buf' <= N
      /\ (scheds = [] -> buf' = buf)
      /\ (endsIdle scheds = true -> len buf' < N).
Proof.
  induction scheds as [|s scheds IH]; intros stream buf wd Hlen.
  - exists buf, wd, []. cbn [pump]. unfold ret.
    split; [reflexivity|]. split; [rewrite app_nil_r; reflexivity|].
    cbn [offered filter List.length firstn List.concat app].
    rewrite app_nil_r.
    repeat split; auto. discriminate.
  - cbn [pump].
    set (offer := if senderReady s then hd_error stream else None).
    destruct (bgIter_by_size offer (fired s) (coin s) buf wd Hlen)
      as (buf1 & wd1 & fl1 & Hrun & Hfl1 & Hel1 & Hfull1 & Hlen1 & Hidle1).
    unfold bind. rewrite Hrun.
    destruct (IH (if taken offer then tl stream else stream) buf1 wd1 Hlen1)
      as (buf' & wd' & fl2 & Hpump & Hfl2 & Hel2 & Hfull2 & Hlen2 & Hnil & Hidle2).
    destruct (offer_split (senderReady s) stream (offered scheds)) as [Hskip Hfirst].
    fold offer in Hskip, Hfirst.
    exists buf', wd', (fl1 ++ fl2).
    split; [rewrite Hpump, offered_cons, Hskip; reflexivity|].
    split; [rewrite Hfl2, Hfl1, <- app_assoc; reflexivity|].
    split.
    { rewrite offered_cons, <- Hfirst, app_assoc, Hel1, <- app_assoc, Hel2.
      rewrite concat_app, <- app_assoc. reflexivity. }
    split; [apply Forall_app; split; assumption|].
    split; [assumption|].
    split; [discriminate|].
    destruct scheds as [|s' scheds'].
    + cbn [endsIdle]. intros Hs. rewrite (Hnil eq_refl).
      apply Hidle1. unfold offer.
      destruct (senderReady s); [discriminate Hs|reflexivity].
    + exact Hidle2.
Qed.

(** C3. With batchSize = N > 0 and batchInterval = 0, whatever the
    stream and the scheduling: the batches flushed, in order, followed
    by the buffer, are the records received, in arrival order; every
    flush holds exactly N records; the buffer never holds more than N,
    and a pass that receives nothing leaves fewer than N in it, so a
    buffer that has reached N is flushed before the next record is
    taken.  With N = 2 and records A, B, C, D arriving without gaps
    the flushes are [A,B] then [C,D], and no other. *)
Theorem size_triggered_flush :
  (forall scheds stream (wd : World B),
     exists buf wd' fl,
       forward marshalRecord urlParseError clientDo w scheds stream wd
       = Some ((Continue {| eventsPayload := buf; deadline := None |},
                skipn (offered scheds) stream), wd')
       /\ flushes (trace wd') = flushes (trace wd) ++ fl
       /\ firstn (offered scheds) stream = List.concat fl ++ elems buf
       /\ Forall full fl
       /\ len buf <= N
       /\ (endsIdle scheds = true -> len buf < N))
  /\ (N = 2 ->
      forall (a b c d : B) (wd : World B),
      let busy := {| senderReady := true; fired := false; coin := true |} in
      let idle := {| senderReady := false; fired := false; coin := true |} in
      exists buf wd',
        forward marshalRecord urlParseError clientDo w
          [busy; busy; busy; busy; idle] [a; b; c; d] wd
        = Some ((Continue {| eventsPayload := buf; deadline := None |}, []), wd')
        /\ elems buf = []
        /\ flushes (trace wd') = flushes (trace wd) ++ [[a; b]; [c; d]]).
Proof.
  assert (Hgen : forall scheds stream (wd : World B),
     exists buf wd' fl,
       forward marshalRecord urlParseError clientDo w scheds stream wd
       = Some ((Continue {| eventsPayload := buf; deadline := None |},
                skipn (offered scheds) stream), wd')
       /\ flushes (trace wd') = flushes (trace wd) ++ fl
       /\ firstn (offered scheds) stream = List.concat fl ++ elems buf
       /\ Forall full fl
       /\ len buf <= N
       /\ (endsIdle scheds = true -> len buf < N)).
  { intros scheds stream wd. unfold forward, bind.
    destruct (bgStart_run wd) as (dl & wd0 & Hstart & _ & Hsame).
    destruct Hsame as [-> ->]; [lia|]. rewrite Hstart.
    destruct (pump_by_size scheds stream (mkSlice []) wd)
      as (buf & wd' & fl & Hpump & Hfl & Hel & Hfull & Hlen & _ & Hidle).
    { unfold len; cbn; lia. }
    exists buf, wd', fl. cbn [elems app] in Hel. auto 10. }
  split; [exact Hgen|].
  intros HN a b c d wd busy idle.
  destruct (Hgen [busy; busy; busy; busy; idle] [a; b; c; d] wd)
    as (buf & wd' & fl & Hrun & Hfl & Hel & Hfull & Hlen & Hidle).
  cbn in Hrun, Hel. specialize (Hidle eq_refl).
  assert (Hbuf : (List.length (elems buf) < 2)%nat) by (unfold len in Hidle; lia).
  assert (Htwo : forall x, In x fl -> List.length x = 2%nat).
  { intros x Hx. rewrite Forall_forall in Hfull.
    specialize (Hfull x Hx). unfold fullBatch in Hfull. lia. }
  assert (Hcount : List.length (List.concat fl ++ elems buf) = 4%nat)
    by (rewrite <- Hel; reflexivity).
  destruct fl as [|x fl].
  { cbn in Hcount. lia. }
  pose proof (Htwo x (or_introl eq_refl)) as Hx.
  destruct x as [|x1 [|x2 [|x3 x]]]; try discriminate Hx.
  destruct fl as [|y fl].
  { cbn in Hcount. lia. }
  pose proof (Htwo y (or_intror (or_introl eq_refl))) as Hy.
  destruct y as [|y1 [|y2 [|y3 y]]]; try discriminate Hy.
  destruct fl as [|z fl].
  - cbn in Hel, Hcount. destruct (elems buf) as [|e es] eqn:He.
    + injection Hel as -> -> -> ->.
      exists buf, wd'. split; [exact Hrun|]. split; [exact He|exact Hfl].
    + cbn in Hcount. lia.
  - pose proof (Htwo z (or_intror (or_intror (or_introl eq_refl)))) as Hz.
    cbn in Hcount. rewrite !length_app in Hcount. lia.
Qed.

End BySize.

(** *** Both triggers disabled *)

Lemma pump_disabled scheds :
  batchSize w = 0 ->
  forall stream buf (wd : World B),
    exists buf',
      pumping scheds stream {| eventsPayload := buf; deadline := None |} wd
      = Some ((Continue {| eventsPayload := buf'; deadline := None |},
               skipn (offered scheds) stream), wd)
      /\ elems buf' = elems buf ++ firstn (offered scheds) stream.
Proof.
  intros Hsize.
  induction scheds as [|s scheds IH]; intros stream buf wd.
  - exists buf. cbn [pump]. unfold ret. split; [reflexivity|].
    cbn. rewrite app_nil_r. reflexivity.
  - cbn [pump]. unfold bind, bgIter, sizeFlush, sizeTrigger, bind, ret.
    rewrite Hsize. cbn [Z.gtb Z.compare andb].
    cbn [deadline eventsPayload chanReady msgReady timerFired pick].
    rewrite offered_cons.
    destruct (senderReady s); [destruct stream as [|x stream]|]; cbn [hd_error goSelect tl].
    + destruct (IH [] buf wd) as (buf' & Hrun & Hel).
      exists buf'. rewrite Hrun, Hel, !skipn_nil, !firstn_nil. split; reflexivity.
    + destruct (IH stream (append buf x) wd) as (buf' & Hrun & Hel).
      exists buf'. rewrite Hrun, Hel. cbn [append elems Nat.add skipn firstn].
      rewrite <- app_assoc. split; reflexivity.
    + destruct (IH stream buf wd) as (buf' & Hrun & Hel).
      exists buf'. rewrite Hrun, Hel. split; reflexivity.
Qed.

Lemma forward_disabled scheds stream (wd : World B) :
  batchSize w = 0 ->
  batchInterval w = 0 ->
  exists buf,
    forward marshalRecord urlParseError clientDo w scheds stream wd
    = Some ((Continue {| eventsPayload := buf; deadline := None |},
             skipn (offered scheds) stream), wd)
    /\ elems buf = firstn (offered scheds) stream.
Proof.
  intros Hsize Hint. unfold forward, bind.
  destruct (bgStart_run wd) as (dl & wd0 & Hstart & _ & Hsame).
  destruct Hsame as [-> ->]; [lia|]. rewrite Hstart.
  destruct (pump_disabled scheds Hsize stream (mkSlice []) wd) as (buf & Hrun & Hel).
  exists buf. split; assumption.
Qed.

(** *** The loop never ends *)

Lemma bgIter_total rd st (wd : World B) :
  retryLimit w < GoInt.maxInt ->
  exists st' took wd', iter rd st wd = Some ((Continue st', took), wd').
Proof.
  intros Hmax. unfold bgIter, bind.
  assert (Hhead : exists st1 wd1,
             sizeFlush marshalRecord urlParseError clientDo w st wd
             = Some (st1, wd1)).
  { unfold sizeFlush. destruct (sizeTrigger w st).
    - apply flush_then_reset_total
        with (f := fun dl => {| eventsPayload := @nilSlice B; deadline := dl |});
        assumption.
    - unfold ret; eauto. }
  destruct Hhead as (st1 & wd1 & ->).
  destruct (goSelect true (msgReady rd)
              (chanReady (deadline st1) (timerFired rd)) (pick rd))
    as [[ep| |]|] eqn:Hsel.
  - unfold ret; eauto.
  - destruct (flush_then_reset_total (eventsPayload st1) true (deadline st1)
                (fun dl => (Continue {| eventsPayload := @nilSlice B; deadline := dl |},
                            false)) wd1 Hmax) as (r & wd2 & Hrun).
    destruct (flush_then_reset _ _ _ _ _ _ _ Hrun) as (dl' & -> & _).
    unfold bind in Hrun. rewrite Hrun. eauto.
  - unfold ret; eauto.
  - unfold goSelect in Hsel.
    destruct (msgReady rd), (chanReady (deadline st1) (timerFired rd));
      discriminate.
Qed.

Lemma bgLoop_total rds :
  retryLimit w < GoInt.maxInt ->
  forall st (wd : World B),
    exists st' wd', bgloop rds st wd = Some (Continue st', wd').
Proof.
  intros Hmax. induction rds as [|rd rds IH]; intros st wd; cbn [bgLoop].
  - unfold ret; eauto.
  - unfold bind.
    destruct (bgIter_total rd st wd Hmax) as (st1 & took & wd1 & ->).
    apply IH.
Qed.

(** C7. A flush of an empty buffer does nothing at all: forwardEvents
    returns with the world as it found it.  So every batch that
    forwardEvents hands to forwardWithRetries, and every batch the
    accumulator ever flushes, has at least one record. *)
Theorem empty_flush_is_noop :
  (forall payload byInterval (wd : World B),
     len payload = 0 -> fev payload byInterval wd = Some (tt, wd))
  /\ (forall payload byInterval (wd wd' : World B),
        fev payload byInterval wd = Some (tt, wd') ->
        exists fl,
          flushes (trace wd') = flushes (trace wd) ++ fl
          /\ Forall (fun b => b <> []) fl)
  /\ (forall scheds stream (wd : World B) r wd',
        forward marshalRecord urlParseError clientDo w scheds stream wd
        = Some (r, wd') ->
        exists fl,
          flushes (trace wd') = flushes (trace wd) ++ fl
          /\ Forall (fun b => b <> []) fl).
Proof.
  split; [exact forwardEvents_empty|]. split.
  - intros payload byInterval wd wd' H.
    apply forwardEvents_frame in H. destruct H as (evs & Htr & Hfl).
    eexists; split; [rewrite Htr, flushes_app, Hfl; reflexivity|].
    destruct (Z.eqb_spec (len payload) 0) as [E|E]; constructor.
    + apply elems_nonempty; assumption.
    + constructor.
  - intros scheds stream wd [c rest] wd' H. unfold forward in H.
    apply bind_Some in H. destruct H as (st0 & wd0 & Hstart & H).
    destruct (bgStart_run wd) as (dl & wd1 & Hrun & Hfl0 & _).
    rewrite Hrun in Hstart. injection Hstart as <- <-.
    apply pump_frame in H. destruct H as (_ & fl & Hfl & Hne).
    exists fl. split; [rewrite Hfl, Hfl0; reflexivity|assumption].
Qed.

(** C9, as the code has it.  The select of bgProcessor has a default
    case, so it never suspends the goroutine: with the buffer below the
    size threshold, nothing offered on [msg] and no timer that has
    fired, the default case runs, the pass ends at once with the state
    and the world unchanged, and the loop checks again; any number of
    such passes complete. *)
Theorem bgProcessor_polls rd st (wd : World B) :
  sizeTrigger w st = false ->
  msgReady rd = None ->
  chanReady (deadline st) (timerFired rd) = false ->
  goSelect true (msgReady rd) (chanReady (deadline st) (timerFired rd)) (pick rd)
  = Some CaseDefault
  /\ iter rd st wd = Some ((Continue st, false), wd)
  /\ forall n, bgloop (repeat rd n) st wd = Some (Continue st, wd).
Proof.
  intros Hsize Hmsg Hdl. split; [rewrite Hmsg, Hdl; reflexivity|].
  split; [apply bgIter_idle; assumption|].
  intros n. apply bgLoop_idle; [assumption|].
  apply Forall_forall. intros x Hx. apply repeat_spec in Hx. subst x. auto.
Qed.

(** C10. The loop of bgProcessor has no way out: after any number of
    passes, alone or fed by forward, it is back at the head of the loop,
    never returned.  Once [msgStream] is used up and forward has left
    its pumping loop, passes without a size or time trigger leave the
    buffered records where they are and flush nothing. *)
Theorem bgProcessor_never_returns :
  (forall rds (wd : World B) c wd',
     bgProcessor marshalRecord urlParseError clientDo w rds wd = Some (c, wd') ->
     exists st, c = Continue st)
  /\ (forall scheds stream (wd : World B) c rest wd',
        forward marshalRecord urlParseError clientDo w scheds stream wd
        = Some ((c, rest), wd') ->
        exists st, c = Continue st)
  /\ (retryLimit w < GoInt.maxInt ->
      forall rds (wd : World B),
      exists st wd',
        bgProcessor marshalRecord urlParseError clientDo w rds wd
        = Some (Continue st, wd'))
  /\ (forall scheds st (wd : World B),
        sizeTrigger w st = false ->
        Forall (fun s => chanReady (deadline st) (fired s) = false) scheds ->
        pumping scheds [] st wd = Some ((Continue st, []), wd)).
Proof.
  split; [|split; [|split]].
  - intros rds wd c wd' H. unfold bgProcessor in H.
    apply bind_Some in H. destruct H as (st0 & wd0 & _ & H).
    eapply bgLoop_frame; exact H.
  - intros scheds stream wd c rest wd' H. unfold forward in H.
    apply bind_Some in H. destruct H as (st0 & wd0 & _ & H).
    apply pump_frame in H. apply H.
  - intros Hmax rds wd. unfold bgProcessor, bind.
    destruct (bgStart_run wd) as (dl & wd0 & -> & _).
    apply bgLoop_total; assumption.
  - intros scheds st wd Hsize Hall. apply pump_closed; assumption.
Qed.

(** *** The retry loop, whatever the endpoint answers *)

Lemma closes_app (a b : list (Event B)) : closes (a ++ b) = closes a ++ closes b.
Proof.
  induction a as [|e a IH]; simpl; [reflexivity|].
  destruct e; simpl; rewrite IH; reflexivity.
Qed.

Lemma closes_map (ds : list Response) : closes (map (@EvClose B) ds) = ds.
Proof. induction ds as [|d ds IH]; simpl; [|rewrite IH]; reflexivity. Qed.

Lemma beforeAttempt_closes retries :
  closes (beforeAttempt (logHTTPHandlerRequestBody := B) w retries) = [].
Proof. unfold beforeAttempt; destruct (retries >=? 1); reflexivity. Qed.

(** How the loop ends with [n] attempts left: it makes [m <= n] calls of
    Do, each on what the call before left of the body, and then closes the
    responses it got, the latest first; either all [n] calls were made and
    failed, or the last call made was answered with a status in [200,300). *)
Lemma retryLoop_outcome n :
  forall fuel req body deferred retries lastErr lastSt (st : World B),
    GoInt.minInt <= retries ->
    retries + Z.of_nat n = retryLimit w + 1 ->
    retryLimit w < GoInt.maxInt ->
    (n < fuel)%nat ->
    exists m pre res,
      (m <= n)%nat
      /\ loop fuel req body deferred retries lastErr lastSt st
         = Some (res,
                 {| trace := trace st ++ pre
                             ++ map EvClose
                                  (rev (responsesOf (answers m (clock st) req body))
                                   ++ deferred);
                    clock := (clock st + m)%nat |})
      /\ closes pre = []
      /\ timeline pre = schedule w retries (reads m (clock st) req body) req
      /\ ((m = n
           /\ forallb failed (answers m (clock st) req body) = true
           /\ res = (lastStatus lastSt (answers m (clock st) req body),
                     lastError lastErr (answers m (clock st) req body)))
          \/ (exists fails r,
                answers m (clock st) req body = fails ++ [inr r]
                /\ forallb failed fails = true
                /\ succeeded (inr r) = true
                /\ res = (StatusCode r, None))).
Proof.
  induction n as [|n IH];
    intros fuel req body deferred retries lastErr lastSt st Hmin Hn Hmax Hfuel;
    (destruct fuel as [|fuel]; [lia|]).
  - rewrite retryLoop_done by lia.
    exists 0%nat, [], (lastSt, lastErr). cbn [attempts readerStates responsesOf rev app schedule].
    rewrite Nat.add_0_r. split; [lia|]. split; [reflexivity|].
    split; [reflexivity|]. split; [reflexivity|]. left. auto.
  - rewrite retryLoop_step by lia. cbv zeta.
    assert (Hincr : GoInt.incr retries = retries + 1) by (apply incr_small; lia).
    rewrite Hincr.
    set (st1 := {| trace := trace st ++ beforeAttempt w retries ++ [EvDo req body];
                   clock := S (clock st) |}).
    assert (Hpre : forall pre : list (Event B),
               closes pre = [] ->
               closes ((beforeAttempt w retries ++ [EvDo req body]) ++ pre) = []).
    { intros pre Hc. rewrite !closes_app, beforeAttempt_closes, Hc. reflexivity. }
    assert (Htl : forall (pre : list (Event B)) rds,
               timeline pre = schedule w (retries + 1) rds req ->
               timeline ((beforeAttempt w retries ++ [EvDo req body]) ++ pre)
               = schedule w retries (body :: rds) req).
    { intros pre rds Ht. rewrite !timeline_app, beforeAttempt_timeline, Ht.
      cbn [schedule timeline]. rewrite <- app_assoc. reflexivity. }
    destruct (clientDo (clock st) req body) as [[err|res] body'] eqn:Hdo.
    + destruct (IH fuel req body' deferred (retries + 1)
                  (Some (ErrWrap err "DO http client request")) lastSt st1)
        as (m & pre & r & Hm & Hrun & Hcl & Hsched & Hend); try lia.
      cbn [clock trace st1] in Hrun, Hsched, Hend.
      exists (S m), ((beforeAttempt w retries ++ [EvDo req body]) ++ pre), r.
      cbn [attempts readerStates]. rewrite Hdo. cbn [snd responsesOf].
      split; [lia|]. split.
      { rewrite Hrun, <- !app_assoc.
        replace (clock st + S m)%nat with (S (clock st) + m)%nat by lia.
        reflexivity. }
      split; [apply Hpre; assumption|]. split; [apply Htl; assumption|].
      destruct Hend as [(-> & Hall & ->)|(fails & r0 & Hans & Hall & Hok & ->)].
      * left. cbn [forallb failed succeeded negb andb].
        rewrite lastStatus_cons, lastError_cons. auto.
      * right. exists (inl err :: fails), r0. rewrite Hans. cbn [app forallb].
        auto.
    + destruct ((StatusCode res >=? 200) && (StatusCode res <? 300)) eqn:Hok.
      * exists 1%nat, (beforeAttempt w retries ++ [EvDo req body]), (StatusCode res, None).
        cbn [attempts readerStates]. rewrite Hdo. cbn [snd responsesOf rev app].
        split; [lia|]. split.
        { cbn [trace clock st1]. rewrite <- !app_assoc.
          replace (clock st + 1)%nat with (S (clock st)) by lia. reflexivity. }
        split; [rewrite <- (app_nil_r (_ ++ _)); apply Hpre; reflexivity|].
        split.
        { rewrite <- (app_nil_r (_ ++ _)). apply (Htl [] []). reflexivity. }
        right. exists [], res. auto.
      * destruct (IH fuel req body' (res :: deferred) (retries + 1)
                    (Some (ErrUnexpectedStatus (StatusCode res))) (StatusCode res) st1)
          as (m & pre & r & Hm & Hrun & Hcl & Hsched & Hend); try lia.
        cbn [clock trace st1] in Hrun, Hsched, Hend.
        exists (S m), ((beforeAttempt w retries ++ [EvDo req body]) ++ pre), r.
        cbn [attempts readerStates]. rewrite Hdo. cbn [snd responsesOf rev].
        split; [lia|]. split.
        { rewrite Hrun, <- !app_assoc. cbn [app].
          replace (clock st + S m)%nat with (S (clock st) + m)%nat by lia.
          reflexivity. }
        split; [apply Hpre; assumption|]. split; [apply Htl; assumption|].
        destruct Hend as [(-> & Hall & ->)|(fails & r0 & Hans & Hall & Hsucc & ->)].
        -- left. cbn [forallb]. unfold failed at 1. cbn [succeeded]. rewrite Hok.
           rewrite lastStatus_cons, lastError_cons. auto.
        -- right. exists (inr res :: fails), r0. rewrite Hans. cbn [app forallb].
           unfold failed at 1. cbn [succeeded]. rewrite Hok. auto.
Qed.

Lemma forwardWithRetries_outcome payload js (st : World B) :
  jsonText marshalRecord payload = inr js ->
  urlParseError (endpoint w) = None ->
  -1 <= retryLimit w < GoInt.maxInt ->
  let req := buildRequest w js in
  exists m pre res,
    Z.of_nat m <= retryLimit w + 1
    /\ fwr payload st
       = Some (res,
               {| trace := trace st
                           ++ [EvMarshal payload; EvNewRequest MethodPost (endpoint w)]
                           ++ pre
                           ++ map EvClose
                                (rev (responsesOf (answers m (clock st) req js)));
                  clock := (clock st + m)%nat |})
    /\ closes pre = []
    /\ timeline pre = schedule w 0 (reads m (clock st) req js) req
    /\ ((Z.of_nat m = retryLimit w + 1
         /\ forallb failed (answers m (clock st) req js) = true
         /\ res = (lastStatus 0 (answers m (clock st) req js),
                   lastError None (answers m (clock st) req js)))
        \/ (exists fails r,
              answers m (clock st) req js = fails ++ [inr r]
              /\ forallb failed fails = true
              /\ succeeded (inr r) = true
              /\ res = (StatusCode r, None))).
Proof.
  intros Hjs Hurl Hlim req.
  rewrite (forwardWithRetries_loop _ _ _ Hjs Hurl). fold req.
  destruct (retryLoop_outcome (Z.to_nat (retryLimit w + 1)) (loopFuel w) req js
              [] 0 None 0
              {| trace := trace st ++ [EvMarshal payload;
                                       EvNewRequest MethodPost (endpoint w)];
                 clock := clock st |})
    as (m & pre & res & Hm & Hrun & Hcl & Hsched & Hend).
  - unfold GoInt.minInt; lia.
  - lia.
  - lia.
  - unfold loopFuel; lia.
  - cbn [trace clock] in Hrun, Hsched, Hend. rewrite app_nil_r in Hrun.
    exists m, pre, res. split; [lia|]. split.
    { rewrite Hrun, <- !app_assoc. reflexivity. }
    split; [assumption|]. split; [assumption|].
    destruct Hend as [(Hmn & Hall & Hres)|Hsucc]; [left|right; assumption].
    split; [lia|]. auto.
Qed.

Lemma attempts_length n k req body : List.length (answers n k req body) = n.
Proof.
  revert k body; induction n as [|n IH]; intros k body; cbn [attempts].
  - reflexivity.
  - destruct (clientDo k req body) as [r body']. cbn [List.length].
    rewrite IH; reflexivity.
Qed.

Lemma lastStatus_failed rs :
  forall start,
    forallb failed rs = true ->
    ~ 200 <= start < 300 ->
    ~ 200 <= lastStatus start rs < 300.
Proof.
  induction rs as [|r rs IH]; intros start Hall Hstart; [exact Hstart|].
  cbn [forallb] in Hall. apply andb_prop in Hall. destruct Hall as [Hr Hall].
  rewrite lastStatus_cons. apply IH; [assumption|].
  destruct r as [e|res]; [assumption|].
  unfold failed, succeeded in Hr. apply negb_true_iff in Hr.
  intros [H1 H2].
  destruct (Z.geb_spec (StatusCode res) 200) as [_|Hlt]; [|lia].
  destruct (Z.ltb_spec (StatusCode res) 300) as [_|Hge]; [discriminate Hr|lia].
Qed.

Lemma lastError_kept rs : forall e, exists e', lastError (Some e) rs = Some e'.
Proof.
  induction rs as [|r rs IH]; intros e; [exists e; reflexivity|].
  destruct (IH (attemptError r)) as (e' & He'). exists e'. exact He'.
Qed.

Lemma succeeded_status r :
  succeeded (inr r) = true -> 200 <= StatusCode r < 300.
Proof.
  cbn [succeeded]. intros H. apply andb_prop in H. destruct H as [H1 H2].
  apply Z.geb_le in H1. apply Z.ltb_lt in H2. lia.
Qed.

(** The retry policy.  With a retry limit of at least 0, forwardWithRetries
    on a batch it can encode, for an endpoint that parses, always returns;
    it calls Do at least once and at most retryLimit + 1 times, whatever
    the answers; the first call is not preceded by a sleep and holds the
    whole JSON body; there is one sleep of retrySleepInterval before every
    later call, always of that same length; and every later call is given
    the body reader as the call before left it. *)
Theorem forwardWithRetries_retry_policy payload js (st : World B) :
  jsonText marshalRecord payload = inr js ->
  urlParseError (endpoint w) = None ->
  0 <= retryLimit w < GoInt.maxInt ->
  let req := buildRequest w js in
  exists res evs m rds,
    fwr payload st
    = Some (res, {| trace := trace st ++ evs; clock := (clock st + m)%nat |})
    /\ 1 <= Z.of_nat m <= retryLimit w + 1
    /\ httpAttempts evs = m
    /\ sleeps evs = (m - 1)%nat
    /\ reads m (clock st) req js = js :: rds
    /\ timeline evs = TDo req js :: schedule w 1 rds req.
Proof.
  intros Hjs Hurl Hlim req.
  destruct (forwardWithRetries_outcome payload js st Hjs Hurl)
    as (m & pre & res & Hm & Hrun & Hcl & Hsched & Hend); [lia|].
  fold req in Hrun, Hsched, Hend.
  assert (Hpos : (1 <= m)%nat).
  { destruct Hend as [(Hmn & _)|(fails & r & Hans & _)]; [lia|].
    apply (f_equal (@List.length _)) in Hans.
    rewrite attempts_length, length_app in Hans. cbn in Hans. lia. }
  destruct m as [|m]; [lia|].
  cbn [readerStates] in Hsched.
  set (rds := reads m (S (clock st)) req (snd (clientDo (clock st) req js))) in *.
  assert (Htl : timeline ([EvMarshal payload; EvNewRequest MethodPost (endpoint w)]
                          ++ pre
                          ++ map EvClose
                               (rev (responsesOf (answers (S m) (clock st) req js))))
                = TDo req js :: schedule w 1 rds req).
  { rewrite !timeline_app, timeline_closes, app_nil_r, Hsched. reflexivity. }
  eexists res, _, (S m), rds.
  split; [exact Hrun|]. split; [lia|].
  split; [|split; [|split; [reflexivity|exact Htl]]].
  - unfold httpAttempts. rewrite Htl. cbn [filter isDo List.length].
    rewrite schedule_attempts. unfold rds. rewrite readerStates_length. reflexivity.
  - unfold sleeps. rewrite Htl. cbn [filter isDo negb].
    rewrite schedule_sleeps_later by lia.
    unfold rds. rewrite readerStates_length. lia.
Qed.

(** What the two results say of each other.  With a retry limit of at
    least 0, forwardWithRetries returns a nil error exactly when the status
    it returns is in [200,300): an error never comes with a 2xx status, and
    status 0 or any other status never comes without an error. *)
Theorem forwardWithRetries_error_iff_status payload (st : World B) :
  0 <= retryLimit w < GoInt.maxInt ->
  exists status oerr st',
    fwr payload st = Some ((status, oerr), st')
    /\ (oerr = None <-> 200 <= status < 300).
Proof.
  intros Hlim.
  destruct (jsonText marshalRecord payload) as [e|js] eqn:Hjs.
  { rewrite (marshal_failure_run _ _ _ Hjs). do 3 eexists. split; [reflexivity|].
    split; [discriminate|lia]. }
  destruct (urlParseError (endpoint w)) as [e|] eqn:Hurl.
  { rewrite (request_failure_run _ _ _ _ Hjs Hurl). do 3 eexists.
    split; [reflexivity|]. split; [discriminate|lia]. }
  destruct (forwardWithRetries_outcome payload js st Hjs Hurl)
    as (m & pre & res & Hm & Hrun & _ & _ & Hend); [lia|].
  destruct Hend as [(Hmn & Hall & ->)|(fails & r & _ & _ & Hok & ->)].
  - do 3 eexists. split; [exact Hrun|].
    set (rs := answers m (clock st) (buildRequest w js) js) in *.
    assert (Hne : rs <> []).
    { intros E. apply (f_equal (@List.length _)) in E.
      unfold rs in E. rewrite attempts_length in E. cbn in E. lia. }
    split.
    + intros Hnone. destruct rs as [|r rs]; [congruence|].
      rewrite lastError_cons in Hnone.
      destruct (lastError_kept rs (attemptError r)) as (e' & He').
      rewrite He' in Hnone. discriminate.
    + intros H2xx. exfalso. revert H2xx. apply lastStatus_failed; [assumption|lia].
  - do 3 eexists. split; [exact Hrun|].
    split; [intros _; apply succeeded_status; assumption|reflexivity].
Qed.

(** A negative retry limit.  The loop returns at its first check, before
    any call of Do: forwardWithRetries returns status 0 with a nil error,
    and forwardEvents logs the batch as sent and sends nothing to the error
    sink, although nothing was posted. *)
Theorem negative_retry_limit_skips_delivery payload js byInterval (st : World B) :
  retryLimit w < 0 ->
  len payload <> 0 ->
  jsonText marshalRecord payload = inr js ->
  urlParseError (endpoint w) = None ->
  fwr payload st
  = Some ((0, None),
          {| trace := trace st ++ [EvMarshal payload;
                                   EvNewRequest MethodPost (endpoint w)];
             clock := clock st |})
  /\ exists st',
       fev payload byInterval st = Some (tt, st')
       /\ clock st' = clock st
       /\ httpAttempts (trace st') = httpAttempts (trace st)
       /\ errSink (trace st') = errSink (trace st)
       /\ exists before,
            trace st'
            = before ++ [EvLog "webhook request success"
                           [("http_status_code", 0); ("batch_size", len payload)]].
Proof.
  intros Hneg Hlen Hjs Hurl.
  assert (Hrun : forall st0 : World B,
             fwr payload st0
             = Some ((0, None),
                     {| trace := trace st0 ++ [EvMarshal payload;
                                               EvNewRequest MethodPost (endpoint w)];
                        clock := clock st0 |})).
  { intros st0. rewrite (forwardWithRetries_loop _ _ _ Hjs Hurl).
    unfold loopFuel. rewrite retryLoop_done by lia.
    cbn [map trace clock]. rewrite app_nil_r. reflexivity. }
  split; [apply Hrun|].
  rewrite forwardEvents_nonempty, Hrun by assumption.
  eexists. split; [reflexivity|]. cbn [trace clock].
  destruct (announced_quiet byInterval st) as [Hsink Hclock].
  assert (Hann : timeline (trace (announced w byInterval st)) = timeline (trace st)).
  { unfold announced. destruct byInterval; cbn [trace]; [|reflexivity].
    rewrite timeline_app. cbn [timeline]. apply app_nil_r. }
  split; [exact Hclock|]. split; [|split].
  - unfold httpAttempts. rewrite !timeline_app, Hann. cbn [timeline].
    rewrite !app_nil_r. reflexivity.
  - rewrite !errSink_app, Hsink. cbn [errSink]. rewrite !app_nil_r. reflexivity.
  - eexists. reflexivity.
Qed.

(** The response bodies.  Every response forwardWithRetries receives is
    closed exactly once; the closes are the last thing the function does,
    after its last call of Do and after every sleep, and they run from the
    latest response back to the first. *)
Theorem forwardWithRetries_closes_bodies payload js (st : World B) :
  jsonText marshalRecord payload = inr js ->
  urlParseError (endpoint w) = None ->
  -1 <= retryLimit w < GoInt.maxInt ->
  let req := buildRequest w js in
  exists res m work,
    fwr payload st
    = Some (res,
            {| trace := trace st ++ work
                        ++ map EvClose
                             (rev (responsesOf (answers m (clock st) req js)));
               clock := (clock st + m)%nat |})
    /\ closes work = []
    /\ httpAttempts work = m.
Proof.
  intros Hjs Hurl Hlim req.
  destruct (forwardWithRetries_outcome payload js st Hjs Hurl Hlim)
    as (m & pre & res & Hm & Hrun & Hcl & Hsched & _).
  fold req in Hrun, Hsched.
  exists res, m, ([EvMarshal payload; EvNewRequest MethodPost (endpoint w)] ++ pre).
  split; [rewrite Hrun, <- !app_assoc; reflexivity|]. split.
  - rewrite closes_app, Hcl. reflexivity.
  - unfold httpAttempts. rewrite timeline_app, Hsched. cbn [timeline app].
    rewrite schedule_attempts. apply readerStates_length.
Qed.

(** *** The accumulator, whatever the configuration *)

Lemma resetDeadline_armed dl (st : World B) :
  dl = armed w ->
  exists st',
    reset dl st = Some (armed w, st')
    /\ flushes (trace st') = flushes (trace st).
Proof.
  intros ->. unfold resetDeadline, armed, timeAfter, bind, emit, ret.
  destruct (batchInterval w >? 0).
  - eexists; split; [reflexivity|]. cbn [trace].
    rewrite flushes_app; cbn [flushes]; apply app_nil_r.
  - eexists; split; reflexivity.
Qed.

Lemma flush_reset_run {A} payload byInterval dl (f : option Z -> A) (st : World B) :
  retryLimit w < GoInt.maxInt ->
  dl = armed w ->
  exists st',
    bind (fev payload byInterval)
      (fun _ => bind (reset dl) (fun dl' => ret (f dl'))) st
    = Some (f (armed w), st')
    /\ flushes (trace st')
       = flushes (trace st) ++ (if len payload =? 0 then [] else [elems payload]).
Proof.
  intros Hmax Hdl. unfold bind.
  destruct (forwardEvents_total payload byInterval st Hmax) as (st1 & Hfev).
  rewrite Hfev. apply forwardEvents_frame in Hfev. destruct Hfev as (evs & Htr & Hfl).
  destruct (resetDeadline_armed dl st1 Hdl) as (st2 & -> & Hfl2).
  unfold ret. eexists; split; [reflexivity|].
  rewrite Hfl2, Htr, flushes_app, Hfl. reflexivity.
Qed.

(** What a flush of [payload] adds to the list of flushes. *)
Lemma flushed_conserves (payload : slice B) :
  elems payload
  = List.concat (if len payload =? 0 then [] else [elems payload]) ++ [].
Proof.
  destruct (Z.eqb_spec (len payload) 0) as [E|E]; cbn [List.concat].
  - unfold len in E. destruct (elems payload); [reflexivity|discriminate E].
  - rewrite !app_nil_r. reflexivity.
Qed.

Lemma flushed_within (payload : slice B) N :
  len payload <= N ->
  Forall (withinBatch N) (if len payload =? 0 then [] else [elems payload]).
Proof.
  intros H. destruct (len payload =? 0); constructor; [exact H|constructor].
Qed.

Lemma flushed_count (payload : slice B) :
  (List.length (if (len payload =? 0)%Z then [] else [elems payload]) <= 1)%nat.
Proof. destruct (len payload =? 0); cbn; lia. Qed.

(** One pass of the loop, for any configuration. *)
Lemma bgIter_pass rd st (wd : World B) :
  retryLimit w < GoInt.maxInt ->
  deadline st = armed w ->
  exists st' took wd' fl,
    iter rd st wd = Some ((Continue st', took), wd')
    /\ deadline st' = armed w
    /\ flushes (trace wd') = flushes (trace wd) ++ fl
    /\ elems (eventsPayload st) ++ (if took then received (msgReady rd) else [])
       = List.concat fl ++ elems (eventsPayload st')
    /\ (took = true -> taken (msgReady rd) = true)
    /\ (forall N, batchSize w = N -> 0 < N -> len (eventsPayload st) <= N ->
          Forall (withinBatch N) fl /\ len (eventsPayload st') <= N)
    /\ (batchSize w <= 0 ->
        (List.length fl <= if timerFired rd then 1 else 0)%nat).
Proof.
  intros Hmax Hdl. unfold bgIter.
  assert (Hhead : exists buf1 wd1 fl1,
             sizeFlush marshalRecord urlParseError clientDo w st wd
             = Some ({| eventsPayload := buf1; deadline := armed w |}, wd1)
             /\ flushes (trace wd1) = flushes (trace wd) ++ fl1
             /\ elems (eventsPayload st) = List.concat fl1 ++ elems buf1
             /\ (forall N, batchSize w = N -> 0 < N -> len (eventsPayload st) <= N ->
                   Forall (withinBatch N) fl1 /\ len buf1 < N)
             /\ (batchSize w <= 0 -> fl1 = [])).
  { unfold sizeFlush, sizeTrigger.
    destruct (Z.gtb_spec (batchSize w) 0) as [Hpos|Hnpos]; cbn [andb];
      [destruct (Z.geb_spec (len (eventsPayload st)) (batchSize w)) as [Hge|Hlt]|].
    - destruct (flush_reset_run (eventsPayload st) false (deadline st)
                  (fun dl => {| eventsPayload := @nilSlice B; deadline := dl |})
                  wd Hmax Hdl) as (wd1 & Hrun & Hfl).
      exists nilSlice, wd1, (if len (eventsPayload st) =? 0 then []
                             else [elems (eventsPayload st)]).
      split; [exact Hrun|]. split; [exact Hfl|].
      split; [apply flushed_conserves|]. split; [|lia].
      intros N HN HNpos Hle. split; [apply flushed_within; assumption|].
      unfold len; cbn; lia.
    - exists (eventsPayload st), wd, []. unfold ret.
      split; [rewrite <- Hdl; destruct st; reflexivity|].
      split; [rewrite app_nil_r; reflexivity|]. split; [reflexivity|].
      split; [|reflexivity]. intros N HN HNpos Hle. split; [constructor|lia].
    - exists (eventsPayload st), wd, []. unfold ret.
      split; [rewrite <- Hdl; destruct st; reflexivity|].
      split; [rewrite app_nil_r; reflexivity|]. split; [reflexivity|].
      split; [|reflexivity]. intros N HN HNpos Hle. lia. }
  destruct Hhead as (buf1 & wd1 & fl1 & Hrun & Hfl1 & Hel1 & Hcap1 & Hoff1).
  unfold bind. rewrite Hrun. cbn [deadline eventsPayload].
  assert (Hmsg : forall ep,
             exists st' took wd' fl,
               ret (A := Ctl B * bool)
                 (Continue {| eventsPayload := append buf1 ep; deadline := armed w |},
                  true) wd1
               = Some ((Continue st', took), wd')
               /\ deadline st' = armed w
               /\ flushes (trace wd') = flushes (trace wd) ++ fl
               /\ elems (eventsPayload st) ++ (if took then [ep] else [])
                  = List.concat fl ++ elems (eventsPayload st')
               /\ took = true
               /\ (forall N, batchSize w = N -> 0 < N -> len (eventsPayload st) <= N ->
                     Forall (withinBatch N) fl /\ len (eventsPayload st') <= N)
               /\ (batchSize w <= 0 -> fl = [])).
  { intros ep. do 4 eexists. unfold ret. split; [reflexivity|].
    cbn [deadline eventsPayload append elems].
    split; [reflexivity|]. split; [exact Hfl1|].
    split; [rewrite Hel1, app_assoc; reflexivity|]. split; [reflexivity|].
    split; [|exact Hoff1].
    intros N HN HNpos Hle. destruct (Hcap1 N HN HNpos Hle) as [Hall Hlt].
    split; [assumption|]. unfold len in *. cbn [append elems].
    rewrite length_app. cbn [List.length]. lia. }
  assert (Htimer : forall offer,
             exists st' wd' fl,
               bind (fev buf1 true)
                 (fun _ => bind (reset (armed w))
                   (fun dl => ret (Continue {| eventsPayload := @nilSlice B;
                                               deadline := dl |}, false))) wd1
               = Some ((Continue st', false), wd')
               /\ deadline st' = armed w
               /\ flushes (trace wd') = flushes (trace wd) ++ fl
               /\ elems (eventsPayload st) ++ []
                  = List.concat fl ++ elems (eventsPayload st')
               /\ (false = true -> taken (logHTTPHandlerRequestBody := B) offer = true)
               /\ (forall N, batchSize w = N -> 0 < N -> len (eventsPayload st) <= N ->
                     Forall (withinBatch N) fl /\ len (eventsPayload st') <= N)
               /\ (batchSize w <= 0 -> (List.length fl <= 1)%nat)).
  { intros offer.
    destruct (flush_reset_run buf1 true (armed w)
                (fun dl => (Continue {| eventsPayload := @nilSlice B; deadline := dl |},
                            false)) wd1 Hmax eq_refl) as (wd2 & Hrun2 & Hfl2).
    exists {| eventsPayload := nilSlice; deadline := armed w |}, wd2,
      (fl1 ++ (if len buf1 =? 0 then [] else [elems buf1])).
    split; [exact Hrun2|]. cbn [deadline eventsPayload elems].
    split; [reflexivity|].
    split; [rewrite Hfl2, Hfl1, <- app_assoc; reflexivity|].
    split.
    { rewrite concat_app, !app_nil_r, Hel1. f_equal.
      rewrite (flushed_conserves buf1) at 1. apply app_nil_r. }
    split; [discriminate|]. split.
    - intros N HN HNpos Hle. destruct (Hcap1 N HN HNpos Hle) as [Hall Hlt].
      split; [|unfold len; cbn; lia].
      apply Forall_app; split; [assumption|]. apply flushed_within. lia.
    - intros Hoff. rewrite (Hoff1 Hoff). cbn [app]. apply flushed_count. }
  destruct rd as [offer fd pk]. cbn [msgReady timerFired pick].
  unfold chanReady. destruct (armed w) as [d|] eqn:Harm.
  - destruct offer as [ep|], fd; cbn [goSelect received taken]; [destruct pk| | |].
    + destruct (Hmsg ep) as (st' & took & wd' & fl & H1 & H2 & H3 & H4 & -> & H6 & H7).
      exists st', true, wd', fl. repeat (split; [assumption|]).
      split; [reflexivity|]. split; [assumption|]. intros Hoff. rewrite (H7 Hoff). cbn; lia.
    + destruct (Htimer (Some ep)) as (st' & wd' & fl & H1 & H2 & H3 & H4 & H5 & H6 & H7).
      exists st', false, wd', fl. auto 10.
    + destruct (Hmsg ep) as (st' & took & wd' & fl & H1 & H2 & H3 & H4 & -> & H6 & H7).
      exists st', true, wd', fl. repeat (split; [assumption|]).
      split; [reflexivity|]. split; [assumption|]. intros Hoff. rewrite (H7 Hoff). cbn; lia.
    + destruct (Htimer (@None B)) as (st' & wd' & fl & H1 & H2 & H3 & H4 & H5 & H6 & H7).
      exists st', false, wd', fl. auto 10.
    + exists {| eventsPayload := buf1; deadline := Some d |}, false, wd1, fl1.
      unfold ret. cbn [deadline eventsPayload].
      split; [reflexivity|]. split; [reflexivity|]. split; [assumption|].
      split; [rewrite app_nil_r; assumption|]. split; [discriminate|]. split.
      * intros N HN HNpos Hle. destruct (Hcap1 N HN HNpos Hle). split; [assumption|lia].
      * intros Hoff. rewrite (Hoff1 Hoff). cbn; lia.
  - destruct offer as [ep|]; cbn [goSelect received taken].
    + destruct (Hmsg ep) as (st' & took & wd' & fl & H1 & H2 & H3 & H4 & -> & H6 & H7).
      exists st', true, wd', fl. repeat (split; [assumption|]).
      split; [reflexivity|]. split; [assumption|].
      intros Hoff. rewrite (H7 Hoff). destruct fd; cbn; lia.
    + exists {| eventsPayload := buf1; deadline := None |}, false, wd1, fl1.
      unfold ret. cbn [deadline eventsPayload].
      split; [reflexivity|]. split; [reflexivity|]. split; [assumption|].
      split; [rewrite app_nil_r; assumption|]. split; [discriminate|]. split.
      * intros N HN HNpos Hle. destruct (Hcap1 N HN HNpos Hle). split; [assumption|lia].
      * intros Hoff. rewrite (Hoff1 Hoff). destruct fd; cbn; lia.
Qed.

Lemma firings_cons s scheds :
  firings (s :: scheds) = ((if fired s then 1 else 0) + firings scheds)%nat.
Proof. unfold firings. cbn [filter]. destruct (fired s); reflexivity. Qed.

(** Any number of passes, for any configuration. *)
Lemma pump_run scheds :
  retryLimit w < GoInt.maxInt ->
  forall stream st (wd : World B),
    deadline st = armed w ->
    exists st' rest wd' consumed fl,
      pumping scheds stream st wd = Some ((Continue st', rest), wd')
      /\ deadline st' = armed w
      /\ stream = consumed ++ rest
      /\ flushes (trace wd') = flushes (trace wd) ++ fl
      /\ elems (eventsPayload st) ++ consumed
         = List.concat fl ++ elems (eventsPayload st')
      /\ (forall N, batchSize w = N -> 0 < N -> len (eventsPayload st) <= N ->
            Forall (withinBatch N) fl /\ len (eventsPayload st') <= N)
      /\ (batchSize w <= 0 -> (List.length fl <= firings scheds)%nat).
Proof.
  intros Hmax.
  induction scheds as [|s scheds IH]; intros stream st wd Hdl.
  - exists st, stream, wd, [], []. cbn [pump]. unfold ret.
    split; [reflexivity|]. split; [assumption|]. split; [reflexivity|].
    split; [rewrite app_nil_r; reflexivity|]. split; [rewrite app_nil_r; reflexivity|].
    split; [|cbn; lia]. intros N _ _ Hle. split; [constructor|assumption].
  - cbn [pump].
    set (offer := if senderReady s then hd_error stream else None).
    destruct (bgIter_pass {| msgReady := offer; timerFired := fired s; pick := coin s |}
                st wd Hmax Hdl)
      as (st1 & took & wd1 & fl1 & Hrun & Hdl1 & Hfl1 & Hel1 & Htook & Hcap1 & Hoff1).
    cbn [msgReady timerFired] in Hel1, Htook, Hoff1.
    unfold bind. rewrite Hrun.
    destruct (IH (if took then tl stream else stream) st1 wd1 Hdl1)
      as (st' & rest & wd' & consumed & fl2 & Hpump & Hdl2 & Hstream & Hfl2 & Hel2
          & Hcap2 & Hoff2).
    exists st', rest, wd', ((if took then received offer else []) ++ consumed),
      (fl1 ++ fl2).
    split; [exact Hpump|]. split; [assumption|]. split.
    { destruct took; [|exact Hstream].
      specialize (Htook eq_refl). unfold offer in *.
      destruct (senderReady s); [|discriminate Htook].
      destruct stream as [|x stream]; [discriminate Htook|].
      cbn [hd_error received tl app] in *. rewrite Hstream at 1. reflexivity. }
    split; [rewrite Hfl2, Hfl1, <- app_assoc; reflexivity|].
    split.
    { rewrite app_assoc, Hel1, <- app_assoc, Hel2, concat_app, <- app_assoc.
      reflexivity. }
    split.
    + intros N HN HNpos Hle.
      destruct (Hcap1 N HN HNpos Hle) as [Hall1 Hle1].
      destruct (Hcap2 N HN HNpos Hle1) as [Hall2 Hle2].
      split; [apply Forall_app; split; assumption|assumption].
    + intros Hoff. rewrite length_app, firings_cons.
      specialize (Hoff1 Hoff). specialize (Hoff2 Hoff). lia.
Qed.

Lemma bgStart_armed (wd : World B) :
  exists wd0,
    bgStart w wd = Some ({| eventsPayload := mkSlice []; deadline := armed w |}, wd0)
    /\ flushes (trace wd0) = flushes (trace wd).
Proof.
  unfold bgStart, armed, timeAfter, bind, emit, ret.
  destruct (batchInterval w >? 0).
  - eexists; split; [reflexivity|]. cbn [trace].
    rewrite flushes_app; cbn [flushes]; apply app_nil_r.
  - eexists; split; reflexivity.
Qed.

Lemma forward_run scheds stream (wd : World B) :
  retryLimit w < GoInt.maxInt ->
  exists st' rest wd' consumed fl,
    forward marshalRecord urlParseError clientDo w scheds stream wd
    = Some ((Continue st', rest), wd')
    /\ deadline st' = armed w
    /\ stream = consumed ++ rest
    /\ flushes (trace wd') = flushes (trace wd) ++ fl
    /\ consumed = List.concat fl ++ elems (eventsPayload st')
    /\ (forall N, batchSize w = N -> 0 < N ->
          Forall (withinBatch N) fl /\ len (eventsPayload st') <= N)
    /\ (batchSize w <= 0 -> (List.length fl <= firings scheds)%nat).
Proof.
  intros Hmax. unfold forward, bind.
  destruct (bgStart_armed wd) as (wd0 & -> & Hfl0).
  destruct (pump_run scheds Hmax stream
              {| eventsPayload := mkSlice []; deadline := armed w |} wd0 eq_refl)
    as (st' & rest & wd' & consumed & fl & Hpump & Hdl & Hstream & Hfl & Hel & Hcap & Hoff).
  cbn [eventsPayload elems app] in Hel, Hcap.
  exists st', rest, wd', consumed, fl.
  split; [exact Hpump|]. split; [assumption|]. split; [assumption|].
  split; [rewrite Hfl, Hfl0; reflexivity|]. split; [assumption|].
  split; [|assumption].
  intros N HN HNpos. apply Hcap; try assumption. unfold len; cbn; lia.
Qed.

(** No record is lost, repeated or moved.  For every configuration, every
    stream and every scheduling, whether deliveries succeed or fail: the
    records bgProcessor has received are a prefix of the stream, and the
    batches flushed so far, in order, followed by the buffer, are exactly
    those records in arrival order.  A batch whose delivery failed is not
    put back. *)
Theorem forward_conserves_records scheds stream (wd : World B) :
  retryLimit w < GoInt.maxInt ->
  exists st' rest wd' fl,
    forward marshalRecord urlParseError clientDo w scheds stream wd
    = Some ((Continue st', rest), wd')
    /\ flushes (trace wd') = flushes (trace wd) ++ fl
    /\ stream = List.concat fl ++ elems (eventsPayload st') ++ rest.
Proof.
  intros Hmax.
  destruct (forward_run scheds stream wd Hmax)
    as (st' & rest & wd' & consumed & fl & Hrun & _ & Hstream & Hfl & Hel & _).
  exists st', rest, wd', fl. split; [exact Hrun|]. split; [exact Hfl|].
  rewrite Hstream, Hel, <- app_assoc. reflexivity.
Qed.

(** The size threshold is a cap.  With batchSize = N > 0, with or without
    a timer, no batch handed to the delivery client holds more than N
    records, and the buffer never holds more than N. *)
Theorem flush_within_batchSize scheds stream (wd : World B) :
  retryLimit w < GoInt.maxInt ->
  0 < batchSize w ->
  exists st' rest wd' fl,
    forward marshalRecord urlParseError clientDo w scheds stream wd
    = Some ((Continue st', rest), wd')
    /\ flushes (trace wd') = flushes (trace wd) ++ fl
    /\ Forall (withinBatch (batchSize w)) fl
    /\ len (eventsPayload st') <= batchSize w.
Proof.
  intros Hmax Hpos.
  destruct (forward_run scheds stream wd Hmax)
    as (st' & rest & wd' & consumed & fl & Hrun & _ & _ & Hfl & _ & Hcap & _).
  exists st', rest, wd', fl. split; [exact Hrun|]. split; [exact Hfl|].
  apply (Hcap (batchSize w)); [reflexivity|assumption].
Qed.

(** Without a size threshold only the timer flushes.  With batchSize <= 0
    there are never more flushes than passes in which the timer had fired,
    however many records arrive. *)
Theorem flush_only_on_timer scheds stream (wd : World B) :
  retryLimit w < GoInt.maxInt ->
  batchSize w <= 0 ->
  exists st' rest wd' fl,
    forward marshalRecord urlParseError clientDo w scheds stream wd
    = Some ((Continue st', rest), wd')
    /\ flushes (trace wd') = flushes (trace wd) ++ fl
    /\ (List.length fl <= firings scheds)%nat.
Proof.
  intros Hmax Hoff.
  destruct (forward_run scheds stream wd Hmax)
    as (st' & rest & wd' & consumed & fl & Hrun & _ & _ & Hfl & _ & _ & Hcount).
  exists st', rest, wd', fl. split; [exact Hrun|]. split; [exact Hfl|].
  apply Hcount; assumption.
Qed.

(** *** What a run costs *)

Section Preserved.

(** A relation between worlds that holds across no step, across two steps
    in a row, across forwardEvents and across time.After holds across
    every run of the accumulator. *)
Variable R : World B -> World B -> Prop.
Hypothesis R_refl : forall wd, R wd wd.
Hypothesis R_trans : forall a b c, R a b -> R b c -> R a c.
Hypothesis R_forwardEvents :
  forall payload byInterval wd wd',
    fev payload byInterval wd = Some (tt, wd') -> R wd wd'.
Hypothesis R_timeAfter :
  forall d wd, R wd {| trace := trace wd ++ [EvAfter d]; clock := clock wd |}.

Lemma reset_preserves dl (wd : World B) dl' wd' :
  reset dl wd = Some (dl', wd') -> R wd wd'.
Proof.
  unfold resetDeadline, timeAfter, bind, emit, ret.
  destruct (batchInterval w >? 0); intros H; injection H as _ <-; auto.
Qed.

Lemma flush_reset_preserves {A} payload byInterval dl (f : option Z -> A)
    (wd : World B) r wd' :
  bind (fev payload byInterval)
    (fun _ => bind (reset dl) (fun dl' => ret (f dl'))) wd = Some (r, wd') ->
  R wd wd'.
Proof.
  intros H. apply bind_Some in H. destruct H as ([] & wd1 & Hfev & H).
  apply bind_Some in H. destruct H as (dl' & wd2 & Hreset & H).
  unfold ret in H. injection H as _ <-.
  eapply R_trans; [eapply R_forwardEvents; exact Hfev|].
  eapply reset_preserves; exact Hreset.
Qed.

Lemma bgIter_preserves rd st (wd : World B) r wd' :
  iter rd st wd = Some (r, wd') -> R wd wd'.
Proof.
  unfold bgIter. intros H.
  apply bind_Some in H. destruct H as (st1 & wd1 & Hsize & H).
  assert (H1 : R wd wd1).
  { unfold sizeFlush in Hsize. destruct (sizeTrigger w st).
    - eapply flush_reset_preserves; exact Hsize.
    - unfold ret in Hsize. injection Hsize as _ <-. apply R_refl. }
  apply (R_trans _ _ _ H1).
  destruct (goSelect true (msgReady rd)
              (chanReady (deadline st1) (timerFired rd)) (pick rd))
    as [[ep| |]|].
  - unfold ret in H. injection H as _ <-. apply R_refl.
  - eapply flush_reset_preserves; exact H.
  - unfold ret in H. injection H as _ <-. apply R_refl.
  - unfold ret in H. injection H as _ <-. apply R_refl.
Qed.

Lemma pump_preserves scheds :
  forall stream st (wd : World B) r wd',
    pumping scheds stream st wd = Some (r, wd') -> R wd wd'.
Proof.
  induction scheds as [|s scheds IH]; intros stream st wd r wd' H; cbn [pump] in H.
  - unfold ret in H. injection H as _ <-. apply R_refl.
  - apply bind_Some in H. destruct H as ([c took] & wd1 & Hiter & H).
    apply bgIter_preserves in Hiter. apply (R_trans _ _ _ Hiter).
    destruct c as [st1|st1|].
    + eapply IH; exact H.
    + unfold ret in H. injection H as _ <-. apply R_refl.
    + unfold ret in H. injection H as _ <-. apply R_refl.
Qed.

Lemma forward_preserves scheds stream (wd : World B) r wd' :
  forward marshalRecord urlParseError clientDo w scheds stream wd = Some (r, wd') ->
  R wd wd'.
Proof.
  unfold forward. intros H.
  apply bind_Some in H. destruct H as (st0 & wd0 & Hstart & H).
  apply pump_preserves in H. refine (R_trans _ _ _ _ H).
  unfold bgStart, timeAfter, bind, emit, ret in Hstart.
  destruct (batchInterval w >? 0); injection Hstart as _ <-; auto.
Qed.

End Preserved.

(** forwardWithRetries calls Do at most retryLimit + 1 times. *)
Lemma forwardWithRetries_cost payload (st : World B) :
  0 <= retryLimit w < GoInt.maxInt ->
  exists res st',
    fwr payload st = Some (res, st')
    /\ (clock st <= clock st')%nat
    /\ Z.of_nat (clock st' - clock st) <= retryLimit w + 1.
Proof.
  intros Hlim.
  destruct (jsonText marshalRecord payload) as [e|js] eqn:Hjs.
  { rewrite (marshal_failure_run _ _ _ Hjs). do 2 eexists. split; [reflexivity|].
    cbn [clock]. split; lia. }
  destruct (urlParseError (endpoint w)) as [e|] eqn:Hurl.
  { rewrite (request_failure_run _ _ _ _ Hjs Hurl). do 2 eexists.
    split; [reflexivity|]. cbn [clock]. split; lia. }
  destruct (forwardWithRetries_outcome payload js st Hjs Hurl)
    as (m & pre & res & Hm & Hrun & _); [lia|].
  do 2 eexists. split; [exact Hrun|]. cbn [clock]. split; lia.
Qed.

(** A run of the accumulator charged to its flushes: [errs] errors on the
    sink and [calls] calls of Do for [batches] batches. *)
Lemma forwardEvents_cost payload byInterval (wd wd' : World B) :
  0 <= retryLimit w < GoInt.maxInt ->
  fev payload byInterval wd = Some (tt, wd') ->
  charged w wd wd'.
Proof.
  intros Hlim H. unfold charged.
  destruct (Z.eqb_spec (len payload) 0) as [E|E].
  - rewrite forwardEvents_empty in H by assumption. injection H as <-.
    exists []. rewrite app_nil_r. cbn. repeat split; lia.
  - rewrite forwardEvents_nonempty in H by assumption.
    destruct (forwardWithRetries_cost payload (announced w byInterval wd) Hlim)
      as (res & st1 & Hrun & Hclock & Hcalls).
    rewrite Hrun in H.
    pose proof (forwardWithRetries_frame _ _ _ _ Hrun) as (evs & Htr & Hev).
    destruct (announced_quiet byInterval wd) as [_ Hc0]. rewrite Hc0 in *.
    assert (Hann : exists pre, trace (announced w byInterval wd) = trace wd ++ pre
                               /\ flushes pre = [] /\ errSink pre = []).
    { unfold announced; destruct byInterval; cbn [trace].
      - eexists; repeat split; reflexivity.
      - exists []; rewrite app_nil_r; repeat split; reflexivity. }
    destruct Hann as (pre & Hpre & Hfl0 & Hsk0).
    assert (Hout : forall e : Event B,
               flushes [e] = [] ->
               (List.length (errSink [e]) <= 1)%nat ->
               exists evs0,
                 trace st1 ++ [e] = trace wd ++ evs0
                 /\ (List.length (errSink evs0) <= List.length (flushes evs0))%nat
                 /\ Z.of_nat (clock st1 - clock wd)
                    <= (retryLimit w + 1) * Z.of_nat (List.length (flushes evs0))).
    { intros e He Hs. exists (pre ++ EvMarshal payload :: evs ++ [e]). split.
      - rewrite Htr, Hpre, <- !app_assoc. reflexivity.
      - rewrite !errSink_app, !flushes_app, Hfl0, Hsk0. cbn [errSink flushes app].
        rewrite errSink_app, flushes_app, (delivery_errSink _ Hev),
          (delivery_flushes _ Hev), He.
        cbn [app List.length]. split; [exact Hs|lia]. }
    destruct res as [sc [err|]]; injection H as <-; cbn [trace clock].
    + destruct (Hout (EvErrCh (ErrWrap err "forward with retries exhausted")) eq_refl)
        as (evs0 & H1 & H2 & H3); [cbn; lia|].
      exists evs0. auto.
    + destruct (Hout (EvLog "webhook request success"
                        [("http_status_code", sc); ("batch_size", len payload)])
                  eq_refl) as (evs0 & H1 & H2 & H3); [cbn; lia|].
      exists evs0. auto.
Qed.

Lemma charged_refl (wd : World B) : 0 <= retryLimit w -> charged w wd wd.
Proof.
  intros H. exists []. rewrite app_nil_r. cbn. repeat split; lia.
Qed.

Lemma charged_trans (a b c : World B) :
  0 <= retryLimit w -> charged w a b -> charged w b c -> charged w a c.
Proof.
  intros Hlim (e1 & Ht1 & Hc1 & Hs1 & Hk1) (e2 & Ht2 & Hc2 & Hs2 & Hk2).
  exists (e1 ++ e2). split; [rewrite Ht2, Ht1, <- app_assoc; reflexivity|].
  split; [lia|]. rewrite errSink_app, flushes_app, !length_app. split; [lia|].
  rewrite Nat2Z.inj_add, Z.mul_add_distr_l. lia.
Qed.

Lemma charged_timeAfter d (wd : World B) :
  0 <= retryLimit w ->
  charged w wd {| trace := trace wd ++ [EvAfter d]; clock := clock wd |}.
Proof.
  intros H. exists [EvAfter d]. cbn. repeat split; lia.
Qed.

(** One error and retryLimit + 1 calls for a batch, at the most.  With a
    retry limit of at least 0, over any run of the accumulator the error
    sink receives no more errors than batches were flushed, and Do is
    called no more than retryLimit + 1 times for each batch flushed;
    with nothing flushed there is no HTTP call and no error. *)
Theorem run_charged_to_flushes scheds stream (wd : World B) :
  0 <= retryLimit w < GoInt.maxInt ->
  exists r wd' evs,
    forward marshalRecord urlParseError clientDo w scheds stream wd = Some (r, wd')
    /\ trace wd' = trace wd ++ evs
    /\ (clock wd <= clock wd')%nat
    /\ (List.length (errSink evs) <= List.length (flushes evs))%nat
    /\ Z.of_nat (clock wd' - clock wd)
       <= (retryLimit w + 1) * Z.of_nat (List.length (flushes evs)).
Proof.
  intros Hlim.
  destruct (forward_run scheds stream wd) as (st' & rest & wd' & _ & _ & Hrun & _);
    [lia|].
  assert (Hch : charged w wd wd').
  { apply (forward_preserves (charged w)) with (scheds := scheds) (stream := stream)
                                               (r := (Continue st', rest)).
    - intros; apply charged_refl; lia.
    - intros a b c; apply charged_trans; lia.
    - intros payload byInterval a b; apply forwardEvents_cost; lia.
    - intros d a; apply charged_timeAfter; lia.
    - exact Hrun. }
  destruct Hch as (evs & Htr & Hclock & Hsink & Hcalls).
  exists (Continue st', rest), wd', evs. auto.
Qed.

(** *** Flushing and the timer *)

Lemma flush_reset_events {A} payload byInterval dl (f : option Z -> A)
    (st : World B) :
  retryLimit w < GoInt.maxInt ->
  0 < batchInterval w ->
  exists st' evs,
    bind (fev payload byInterval)
      (fun _ => bind (reset dl) (fun dl' => ret (f dl'))) st
    = Some (f (Some (batchInterval w)), st')
    /\ trace st' = trace st ++ evs ++ [EvAfter (batchInterval w)]
    /\ flushes evs = (if len payload =? 0 then [] else [elems payload])
    /\ (len payload = 0 -> evs = []).
Proof.
  intros Hmax Hpos. unfold bind.
  destruct (forwardEvents_total payload byInterval st Hmax) as (st1 & Hfev).
  rewrite Hfev.
  assert (Hevs : exists evs,
             trace st1 = trace st ++ evs
             /\ flushes evs = (if len payload =? 0 then [] else [elems payload])
             /\ (len payload = 0 -> evs = [])).
  { destruct (Z.eqb_spec (len payload) 0) as [E|E].
    - rewrite forwardEvents_empty in Hfev by assumption. injection Hfev as <-.
      exists []. rewrite app_nil_r. auto.
    - apply forwardEvents_frame in Hfev. destruct Hfev as (evs & Htr & Hfl).
      exists evs. destruct (Z.eqb_spec (len payload) 0) as [E'|_]; [contradiction|].
      repeat split; try assumption. intros; contradiction. }
  destruct Hevs as (evs & Htr & Hfl & Hnil).
  unfold resetDeadline, timeAfter, bind, emit, ret.
  destruct (Z.gtb_spec (batchInterval w) 0) as [_|Hle]; [|lia].
  exists {| trace := trace st1 ++ [EvAfter (batchInterval w)]; clock := clock st1 |}, evs.
  split; [reflexivity|]. cbn [trace]. rewrite Htr, <- app_assoc. auto.
Qed.

(** Every flush restarts the timer.  With batchInterval > 0, a flush by
    size and a flush by the timer both end with a new time.After of
    batchInterval, so the next deadline is counted from the end of the
    delivery.  The timer case hands over whatever is buffered and empties
    the buffer; with nothing buffered it only restarts the timer. *)
Theorem flush_rearms_timer rd st (wd : World B) :
  retryLimit w < GoInt.maxInt ->
  0 < batchInterval w ->
  deadline st = Some (batchInterval w) ->
  let after := {| eventsPayload := nilSlice; deadline := Some (batchInterval w) |} in
  (sizeTrigger w st = true ->
   exists wd' evs,
     sizeFlush marshalRecord urlParseError clientDo w st wd = Some (after, wd')
     /\ trace wd' = trace wd ++ evs ++ [EvAfter (batchInterval w)]
     /\ flushes evs = [elems (eventsPayload st)])
  /\ (sizeTrigger w st = false ->
      timerFired rd = true ->
      msgReady rd = None \/ pick rd = false ->
      exists wd' evs,
        iter rd st wd = Some ((Continue after, false), wd')
        /\ trace wd' = trace wd ++ evs ++ [EvAfter (batchInterval w)]
        /\ flushes evs = (if len (eventsPayload st) =? 0 then []
                          else [elems (eventsPayload st)])
        /\ (len (eventsPayload st) = 0 -> evs = [])).
Proof.
  intros Hmax Hpos Hdl after. split.
  - intros Htrig. unfold sizeFlush. rewrite Htrig.
    destruct (flush_reset_events (eventsPayload st) false (deadline st)
                (fun dl => {| eventsPayload := @nilSlice B; deadline := dl |})
                wd Hmax Hpos) as (wd' & evs & Hrun & Htr & Hfl & _).
    exists wd', evs. split; [exact Hrun|]. split; [exact Htr|].
    unfold sizeTrigger in Htrig. apply andb_prop in Htrig. destruct Htrig as [H1 H2].
    destruct (Z.gtb_spec (batchSize w) 0) as [Hb|_]; [|discriminate H1].
    destruct (Z.geb_spec (len (eventsPayload st)) (batchSize w)) as [Hge|_];
      [|discriminate H2].
    destruct (Z.eqb_spec (len (eventsPayload st)) 0) as [E|_]; [lia|exact Hfl].
  - intros Htrig Hfired Hpick. unfold bgIter, sizeFlush. rewrite Htrig.
    unfold bind at 1. unfold ret at 1. rewrite Hdl, Hfired. cbn [chanReady].
    assert (Hsel : goSelect true (msgReady rd) true (pick rd) = Some CaseDeadline).
    { destruct Hpick as [-> | ->]; [reflexivity|].
      destruct (msgReady rd); reflexivity. }
    rewrite Hsel.
    destruct (flush_reset_events (eventsPayload st) true (Some (batchInterval w))
                (fun dl => (Continue {| eventsPayload := @nilSlice B; deadline := dl |},
                            false)) wd Hmax Hpos) as (wd' & evs & Hrun & Htr & Hfl & Hnil).
    exists wd', evs. auto.
Qed.

End DeliveryClient.

Lemma provideAll_built w0 fs :
  provideAll fs (Some w0) = (repeat w0 (List.length fs), Some w0).
Proof.
  induction fs as [|f fs IH]; [reflexivity|].
  cbn [provideAll provide List.length repeat]. rewrite IH. reflexivity.
Qed.

(** The provider builds the forwarder once.  Every call returns the
    forwarder made from the flags as they were at the first call; what the
    flags are at later calls does not matter, and the variable is never
    set back to nil. *)
Theorem provider_builds_once f fs :
  provideAll (f :: fs) None
  = (repeat (newWebhookForwarderHandler f) (S (List.length fs)),
     Some (newWebhookForwarderHandler f)).
Proof.
  cbn [provideAll provide]. rewrite provideAll_built. reflexivity.
Qed.

(** C8. The constructor takes batchSize = 0 with batchInterval = 0 as it
    takes any other pair, and with that configuration nothing is ever
    flushed: whatever the stream and the scheduling, every record received
    stays in the buffer and the world is left untouched (no json.Marshal,
    no HTTP call, nothing on the error sink). *)
Theorem both_triggers_disabled {B : Type}
    (marshalRecord : B -> string + string)
    (urlParseError : string -> option string)
    (clientDo : nat -> Request -> string -> (GoError + Response) * string)
    (f : flags) :
  flagBatchSize f = 0 ->
  flagBatchInterval f = 0 ->
  let w := newWebhookForwarderHandler f in
  batchSize w = 0
  /\ batchInterval w = 0
  /\ forall scheds stream (wd : World B),
       exists buf,
         forward marshalRecord urlParseError clientDo w scheds stream wd
         = Some ((Continue {| eventsPayload := buf; deadline := None |},
                  skipn (offered scheds) stream), wd)
         /\ elems buf = firstn (offered scheds) stream.
Proof.
  intros Hsize Hint w.
  split; [exact Hsize|]. split; [exact Hint|].
  intros scheds stream wd.
  apply forward_disabled; assumption.
Qed.

(** * The model at work *)

Section Runs.

Import Sample.

Local Abbreviation fwr net w :=
  (forwardWithRetries marshalRecord urlParseError (NetHTTP.Do net) w).
Local Abbreviation fev net w :=
  (forwardEvents marshalRecord urlParseError (NetHTTP.Do net) w).
Local Abbreviation run net w :=
  (forward marshalRecord urlParseError (NetHTTP.Do net) w).

(** C2, on the code.  The endpoint answers the first POST of the batch
    [A,B] with 503 and would answer 200 from then on.  The first call of
    Do reads the buffer behind [req.Body] to its end; the three retries
    hand the same request to Do with nothing left to read, net/http
    refuses to send it, and the batch is given up with status 503 and the
    length error, although the endpoint had recovered. *)
Lemma retries_find_body_drained :
  let w := config 2 0 in
  let req := buildRequest w "[A,B]" in
  let d := retrySleepInterval w in
  option_map (fun r => (fst r, timeline (trace (snd r))))
    (fwr recovering w (mkSlice ["A"; "B"]) world0)
  = Some ((503,
           Some (ErrWrap
                   (ErrLib "Post http://hook.example/in: http: ContentLength=5 with Body length 0")
                   "DO http client request")),
          [TDo req "[A,B]"; TSleep d; TDo req ""; TSleep d; TDo req "";
           TSleep d; TDo req ""]).
Proof. vm_compute. reflexivity. Qed.

(** When no call of Do gets as far as reading the body, every attempt
    carries it. *)
Lemma refused_attempts_keep_body :
  let w := config 2 0 in
  let req := buildRequest w "[A,B]" in
  let d := retrySleepInterval w in
  option_map (fun r => (fst r, timeline (trace (snd r))))
    (fwr refused w (mkSlice ["A"; "B"]) world0)
  = Some ((0,
           Some (ErrWrap (ErrLib "dial tcp: connection refused")
                   "DO http client request")),
          [TDo req "[A,B]"; TSleep d; TDo req "[A,B]"; TSleep d;
           TDo req "[A,B]"; TSleep d; TDo req "[A,B]"]).
Proof. vm_compute. reflexivity. Qed.

(** C6 as the claim has it fails: json.Marshal rejects the batch, no
    retry loop runs, and still the sink gets the error under the context
    [forward with retries exhausted]. *)
Lemma fatal_error_is_wrapped_too :
  let payload := mkSlice ["A"; ""] in
  let fatal := ErrWrap (ErrLib "json: unsupported value") "marshal" in
  fwr refused (config 2 0) payload world0
  = Some ((0, Some fatal), {| trace := [EvMarshal payload]; clock := 0 |})
  /\ exists wd',
       fev refused (config 2 0) payload false world0 = Some (tt, wd')
       /\ httpAttempts (trace wd') = 0%nat
       /\ errSink (trace wd') = [ErrWrap fatal "forward with retries exhausted"]
       /\ errSink (trace wd') <> [fatal].
Proof.
  split; [vm_compute; reflexivity|].
  eexists. split; [vm_compute; reflexivity|].
  split; [reflexivity|]. split; [reflexivity|].
  cbn. intros H. discriminate H.
Qed.

(** C9 as the claim has it fails: with an empty buffer, a threshold of
    two, nothing on [msg] and no timer, the pass does not end suspended
    in the select; it ends back at the head of the loop.  The same
    select without its default case would have blocked. *)
Lemma idle_pass_does_not_block :
  let st := {| eventsPayload := mkSlice []; deadline := None |} in
  let pass := bgIter marshalRecord urlParseError (NetHTTP.Do refused)
                (config 2 0) quiet st world0 in
  sizeTrigger (config 2 0) st = false
  /\ pass = Some ((Continue st, false), world0)
  /\ pass <> Some ((Blocked st, false), world0)
  /\ goSelect true (msgReady quiet)
       (chanReady (deadline st) (timerFired quiet)) (pick quiet)
     = Some CaseDefault
  /\ goSelect false (msgReady quiet)
       (chanReady (deadline st) (timerFired quiet)) (pick quiet)
     = None.
Proof.
  cbv zeta. split; [reflexivity|]. split; [reflexivity|].
  split; [|split; reflexivity].
  cbn. intros H. discriminate H.
Qed.

(** An endpoint that answers 503 for good: four calls, three sleeps. *)
Lemma forwardWithRetries_exhausted_witness :
  let w := config 2 0 in
  let req := buildRequest w "[A,B]" in
  let d := retrySleepInterval w in
  exists evs r1 r2 r3 r4 b2 b3 b4,
    attempts (NetHTTP.Do (always 503)) 4 0 req "[A,B]" = [r1; r2; r3; r4]
    /\ fwr (always 503) w (mkSlice ["A"; "B"]) world0
       = Some ((lastStatus 0 [r1; r2; r3; r4], Some (attemptError r4)),
               {| trace := [] ++ evs; clock := 4 |})
    /\ timeline evs
       = [TDo req "[A,B]"; TSleep d; TDo req b2; TSleep d; TDo req b3;
          TSleep d; TDo req b4]
    /\ httpAttempts evs = 4%nat
    /\ sleeps evs = 3%nat
    /\ lastStatus 0 [r1; r2; r3; r4]
       = match r4, r3, r2, r1 with
         | inr res, _, _, _ => StatusCode res
         | inl _, inr res, _, _ => StatusCode res
         | inl _, inl _, inr res, _ => StatusCode res
         | inl _, inl _, inl _, inr res => StatusCode res
         | inl _, inl _, inl _, inl _ => 0
         end.
Proof.
  apply (forwardWithRetries_exhausted marshalRecord urlParseError
           (NetHTTP.Do (always 503)) (config 2 0) (mkSlice ["A"; "B"])
           "[A,B]" world0);
    vm_compute; reflexivity.
Defined.

(** Connection refused once, then 200: two calls, one sleep. *)
Lemma forwardWithRetries_success_witness :
  let w := config 2 0 in
  exists evs before b,
    fwr lateStart w (mkSlice ["A"; "B"]) world0
    = Some ((200, None), {| trace := [] ++ evs; clock := 2 |})
    /\ timeline evs = before ++ [TDo (buildRequest w "[A,B]") b]
    /\ httpAttempts evs = 2%nat
    /\ sleeps evs = 1%nat.
Proof.
  apply (forwardWithRetries_success marshalRecord urlParseError
           (NetHTTP.Do lateStart) (config 2 0) (mkSlice ["A"; "B"])
           "[A,B]" world0 1
           [inl (ErrLib "dial tcp: connection refused")]
           {| StatusCode := 200 |});
    try (vm_compute; reflexivity).
  - vm_compute; discriminate.
  - vm_compute; discriminate.
  - simpl; lia.
Defined.

(** A record json.Marshal rejects, and an endpoint that does not parse. *)
Lemma forwardWithRetries_fatal_witness :
  (exists evs,
     fwr refused (config 2 0) (mkSlice ["A"; ""]) world0
     = Some ((0, Some (ErrWrap (ErrLib "json: unsupported value") "marshal")),
             {| trace := [] ++ evs; clock := 0 |})
     /\ httpAttempts evs = 0%nat /\ sleeps evs = 0%nat)
  /\ (exists evs,
        fwr refused badURL (mkSlice ["A"; "B"]) world0
        = Some ((0, Some (ErrWrap (ErrLib "parse :bad: missing protocol scheme")
                            "new HTTP request")),
                {| trace := [] ++ evs; clock := 0 |})
        /\ httpAttempts evs = 0%nat /\ sleeps evs = 0%nat).
Proof.
  split.
  - apply (proj1 (forwardWithRetries_fatal marshalRecord urlParseError
                    (NetHTTP.Do refused) (config 2 0) (mkSlice ["A"; ""])
                    world0)).
    vm_compute; reflexivity.
  - apply (proj2 (forwardWithRetries_fatal marshalRecord urlParseError
                    (NetHTTP.Do refused) badURL (mkSlice ["A"; "B"])
                    world0) "[A,B]").
    + vm_compute; reflexivity.
    + vm_compute; reflexivity.
Defined.

(** The sink after a batch json.Marshal rejects. *)
Lemma forwardEvents_error_sink_witness :
  exists st',
    fev refused (config 2 0) (mkSlice ["A"; ""]) false world0 = Some (tt, st')
    /\ errSink (trace st')
       = errSink (trace world0)
         ++ [ErrWrap (ErrWrap (ErrLib "json: unsupported value") "marshal")
               "forward with retries exhausted"]
    /\ clock st' = clock world0.
Proof.
  refine (proj1 (proj2 (forwardEvents_error_sink marshalRecord urlParseError
                          (NetHTTP.Do refused) (config 2 0)
                          (mkSlice ["A"; ""]) false world0 _))
            (ErrLib "json: unsupported value") _).
  - vm_compute; discriminate.
  - vm_compute; reflexivity.
Defined.

(** A timer flush with nothing buffered; a flush of one record; a run
    of the accumulator that flushes once. *)
Lemma empty_flush_is_noop_witness :
  fev (always 200) (config 0 1) nilSlice true world0 = Some (tt, world0)
  /\ (exists wd',
        fev (always 200) (config 1 0) (mkSlice ["A"]) false world0
        = Some (tt, wd')
        /\ exists fl,
             flushes (trace wd') = flushes (trace world0) ++ fl
             /\ Forall (fun b : list string => b <> []) fl)
  /\ (exists r wd',
        run (always 200) (config 2 0) [busy; busy; idle] ["A"; "B"] world0
        = Some (r, wd')
        /\ exists fl,
             flushes (trace wd') = flushes (trace world0) ++ fl
             /\ Forall (fun b : list string => b <> []) fl).
Proof.
  split; [|split].
  - apply (proj1 (empty_flush_is_noop marshalRecord urlParseError
                    (NetHTTP.Do (always 200)) (config 0 1))).
    reflexivity.
  - eexists. split; [vm_compute; reflexivity|].
    apply (proj1 (proj2 (empty_flush_is_noop marshalRecord urlParseError
                           (NetHTTP.Do (always 200)) (config 1 0)))
             (mkSlice ["A"]) false world0).
    vm_compute. reflexivity.
  - do 2 eexists. split; [vm_compute; reflexivity|].
    eapply (proj2 (proj2 (empty_flush_is_noop marshalRecord urlParseError
                            (NetHTTP.Do (always 200)) (config 2 0)))
              [busy; busy; idle] ["A"; "B"] world0).
    vm_compute. reflexivity.
Defined.

(** Scenario A, and three records against a threshold of two. *)
Lemma size_triggered_flush_witness :
  (exists buf wd',
     run (always 200) (config 2 0) [busy; busy; busy; busy; idle]
       ["A"; "B"; "C"; "D"] world0
     = Some ((Continue {| eventsPayload := buf; deadline := None |}, []), wd')
     /\ elems buf = []
     /\ flushes (trace wd') = flushes (trace world0) ++ [["A"; "B"]; ["C"; "D"]])
  /\ (exists buf wd' fl,
        run (always 503) (config 2 0) [busy; idle; busy; busy]
          ["A"; "B"; "C"; "D"] world0
        = Some ((Continue {| eventsPayload := buf; deadline := None |},
                 skipn (offered [busy; idle; busy; busy]) ["A"; "B"; "C"; "D"]),
                wd')
        /\ flushes (trace wd') = flushes (trace world0) ++ fl
        /\ firstn (offered [busy; idle; busy; busy]) ["A"; "B"; "C"; "D"]
           = List.concat fl ++ elems buf
        /\ Forall (fullBatch 2) fl
        /\ len buf <= 2
        /\ (endsIdle [busy; idle; busy; busy] = true -> len buf < 2)).
Proof.
  assert (Hlim : retryLimit (config 2 0) < GoInt.maxInt) by (vm_compute; reflexivity).
  assert (Hpos : 0 < 2) by lia.
  split.
  - exact (proj2 (size_triggered_flush marshalRecord urlParseError
                    (NetHTTP.Do (always 200)) (config 2 0) 2
                    eq_refl Hpos eq_refl Hlim)
             eq_refl "A" "B" "C" "D" world0).
  - exact (proj1 (size_triggered_flush marshalRecord urlParseError
                    (NetHTTP.Do (always 503)) (config 2 0) 2
                    eq_refl Hpos eq_refl Hlim)
             [busy; idle; busy; busy] ["A"; "B"; "C"; "D"] world0).
Defined.

(** batchSize = 0 and batchInterval = 0: four records received, nothing
    done with them. *)
Lemma both_triggers_disabled_witness :
  let w := config 0 0 in
  batchSize w = 0
  /\ batchInterval w = 0
  /\ forall scheds stream (wd : World string),
       exists buf,
         run (always 200) w scheds stream wd
         = Some ((Continue {| eventsPayload := buf; deadline := None |},
                  skipn (offered scheds) stream), wd)
         /\ elems buf = firstn (offered scheds) stream.
Proof.
  apply (both_triggers_disabled marshalRecord urlParseError
           (NetHTTP.Do (always 200))
           {| postEndpoint := "http://hook.example/in";
              flagBatchSize := 0; flagBatchInterval := 0 |});
    reflexivity.
Defined.

(** One record buffered against a threshold of two, a timer armed and
    not fired, nothing on [msg]. *)
Lemma bgProcessor_polls_witness :
  let st := {| eventsPayload := mkSlice ["A"]; deadline := Some Second |} in
  goSelect true (msgReady quiet)
    (chanReady (deadline st) (timerFired quiet)) (pick quiet)
  = Some CaseDefault
  /\ bgIter marshalRecord urlParseError (NetHTTP.Do refused) (config 2 Second)
       quiet st world0
     = Some ((Continue st, false), world0)
  /\ forall n,
       bgLoop marshalRecord urlParseError (NetHTTP.Do refused) (config 2 Second)
         (repeat quiet n) st world0
       = Some (Continue st, world0).
Proof.
  apply (bgProcessor_polls marshalRecord urlParseError (NetHTTP.Do refused)
           (config 2 Second) quiet
           {| eventsPayload := mkSlice ["A"]; deadline := Some Second |}
           world0);
    reflexivity.
Defined.

(** One record left in the buffer when the stream ends: three more
    passes, and it is still there. *)
Lemma bgProcessor_never_returns_witness :
  let st := {| eventsPayload := mkSlice ["A"]; deadline := None |} in
  (exists c wd',
     bgProcessor marshalRecord urlParseError (NetHTTP.Do (always 200))
       (config 2 0) [quiet; quiet] world0 = Some (c, wd')
     /\ exists st', c = Continue st')
  /\ (exists c rest wd',
        run (always 200) (config 2 0) [busy; idle] ["A"] world0
        = Some ((c, rest), wd')
        /\ exists st', c = Continue st')
  /\ (forall rds (wd : World string),
      exists st' wd',
        bgProcessor marshalRecord urlParseError (NetHTTP.Do (always 200))
          (config 2 0) rds wd = Some (Continue st', wd'))
  /\ pump marshalRecord urlParseError (NetHTTP.Do (always 200)) (config 2 0)
       [idle; busy; idle] [] st world0
     = Some ((Continue st, []), world0).
Proof.
  pose proof (bgProcessor_never_returns marshalRecord urlParseError
                (NetHTTP.Do (always 200)) (config 2 0))
    as (Hbg & Hfw & Htotal & Hclosed).
  split; [|split; [|split]].
  - do 2 eexists. split; [vm_compute; reflexivity|].
    eapply (Hbg [quiet; quiet] world0). vm_compute. reflexivity.
  - do 3 eexists. split; [vm_compute; reflexivity|].
    eapply (Hfw [busy; idle] ["A"] world0). vm_compute. reflexivity.
  - apply Htotal. vm_compute. reflexivity.
  - apply Hclosed.
    + reflexivity.
    + repeat constructor.
Defined.

End Runs.

Section MoreRuns.

Import Sample.

Local Abbreviation fwr net w :=
  (forwardWithRetries marshalRecord urlParseError (NetHTTP.Do net) w).
Local Abbreviation fev net w :=
  (forwardEvents marshalRecord urlParseError (NetHTTP.Do net) w).
Local Abbreviation run net w :=
  (forward marshalRecord urlParseError (NetHTTP.Do net) w).

(** The batch [A,B] against an endpoint that refuses the first connection. *)
Lemma forwardWithRetries_retry_policy_witness :
  let w := config 2 0 in
  let req := buildRequest w "[A,B]" in
  exists res evs m rds,
    fwr lateStart w (mkSlice ["A"; "B"]) world0
    = Some (res, {| trace := [] ++ evs; clock := (0 + m)%nat |})
    /\ 1 <= Z.of_nat m <= retryLimit w + 1
    /\ httpAttempts evs = m
    /\ sleeps evs = (m - 1)%nat
    /\ readerStates (NetHTTP.Do lateStart) m 0 req "[A,B]" = "[A,B]" :: rds
    /\ timeline evs = TDo req "[A,B]" :: schedule w 1 rds req.
Proof.
  apply (forwardWithRetries_retry_policy marshalRecord urlParseError
           (NetHTTP.Do lateStart) (config 2 0) (mkSlice ["A"; "B"]) "[A,B]" world0).
  - vm_compute; reflexivity.
  - vm_compute; reflexivity.
  - unfold config, newWebhookForwarderHandler, GoInt.maxInt; simpl; lia.
Defined.

Lemma forwardWithRetries_error_iff_status_witness :
  exists status oerr st',
    fwr (always 503) (config 2 0) (mkSlice ["A"; "B"]) world0
    = Some ((status, oerr), st')
    /\ (oerr = None <-> 200 <= status < 300).
Proof.
  apply (forwardWithRetries_error_iff_status marshalRecord urlParseError
           (NetHTTP.Do (always 503)) (config 2 0) (mkSlice ["A"; "B"]) world0).
  unfold config, newWebhookForwarderHandler, GoInt.maxInt; simpl; lia.
Defined.

Lemma negative_retry_limit_skips_delivery_witness :
  fwr refused noRetry (mkSlice ["A"]) world0
  = Some ((0, None),
          {| trace := [] ++ [EvMarshal (mkSlice ["A"]);
                             EvNewRequest MethodPost (endpoint noRetry)];
             clock := 0 |})
  /\ exists st',
       fev refused noRetry (mkSlice ["A"]) false world0 = Some (tt, st')
       /\ clock st' = 0%nat
       /\ httpAttempts (trace st') = httpAttempts (trace world0)
       /\ errSink (trace st') = errSink (trace world0)
       /\ exists before,
            trace st'
            = before ++ [EvLog "webhook request success"
                           [("http_status_code", 0);
                            ("batch_size", len (mkSlice ["A"]))]].
Proof.
  apply (negative_retry_limit_skips_delivery marshalRecord urlParseError
           (NetHTTP.Do refused) noRetry (mkSlice ["A"]) "[A]" false world0).
  - unfold config, newWebhookForwarderHandler, noRetry; simpl; lia.
  - vm_compute; discriminate.
  - vm_compute; reflexivity.
  - vm_compute; reflexivity.
Defined.

Lemma forwardWithRetries_closes_bodies_witness :
  let w := config 2 0 in
  let req := buildRequest w "[A,B]" in
  exists res m work,
    fwr (always 503) w (mkSlice ["A"; "B"]) world0
    = Some (res,
            {| trace := [] ++ work
                        ++ map EvClose
                             (rev (responsesOf
                                     (attempts (NetHTTP.Do (always 503)) m 0 req "[A,B]")));
               clock := (0 + m)%nat |})
    /\ closes work = []
    /\ httpAttempts work = m.
Proof.
  apply (forwardWithRetries_closes_bodies marshalRecord urlParseError
           (NetHTTP.Do (always 503)) (config 2 0) (mkSlice ["A"; "B"]) "[A,B]" world0).
  - vm_compute; reflexivity.
  - vm_compute; reflexivity.
  - unfold config, newWebhookForwarderHandler, GoInt.maxInt; simpl; lia.
Defined.

(** Size and timer together, deliveries failing. *)
Lemma forward_conserves_records_witness :
  exists st' rest wd' fl,
    run (always 503) (config 2 Second) [busy; tick; busy; busy; busy; idle]
      ["A"; "B"; "C"; "D"; "E"] world0
    = Some ((Continue st', rest), wd')
    /\ flushes (trace wd') = flushes (trace world0) ++ fl
    /\ ["A"; "B"; "C"; "D"; "E"]
       = List.concat fl ++ elems (eventsPayload st') ++ rest.
Proof.
  apply (forward_conserves_records marshalRecord urlParseError
           (NetHTTP.Do (always 503)) (config 2 Second)).
  unfold config, newWebhookForwarderHandler, GoInt.maxInt; simpl; lia.
Defined.

Lemma flush_within_batchSize_witness :
  exists st' rest wd' fl,
    run (always 200) (config 2 Second) [busy; tick; busy; busy; busy; idle]
      ["A"; "B"; "C"; "D"; "E"] world0
    = Some ((Continue st', rest), wd')
    /\ flushes (trace wd') = flushes (trace world0) ++ fl
    /\ Forall (withinBatch (batchSize (config 2 Second))) fl
    /\ len (eventsPayload st') <= batchSize (config 2 Second).
Proof.
  apply (flush_within_batchSize marshalRecord urlParseError
           (NetHTTP.Do (always 200)) (config 2 Second)).
  - unfold config, newWebhookForwarderHandler, GoInt.maxInt; simpl; lia.
  - unfold config, newWebhookForwarderHandler, noRetry; simpl; lia.
Defined.

Lemma flush_only_on_timer_witness :
  exists st' rest wd' fl,
    run (always 200) (config 0 Second) [busy; busy; tick; busy; idle]
      ["A"; "B"; "C"] world0
    = Some ((Continue st', rest), wd')
    /\ flushes (trace wd') = flushes (trace world0) ++ fl
    /\ (List.length fl <= firings [busy; busy; tick; busy; idle])%nat.
Proof.
  apply (flush_only_on_timer marshalRecord urlParseError
           (NetHTTP.Do (always 200)) (config 0 Second)).
  - unfold config, newWebhookForwarderHandler, GoInt.maxInt; simpl; lia.
  - unfold config, newWebhookForwarderHandler, noRetry; simpl; lia.
Defined.

Lemma run_charged_to_flushes_witness :
  exists r wd' evs,
    run (always 503) (config 2 0) [busy; busy; busy; busy; idle]
      ["A"; "B"; "C"; "D"] world0
    = Some (r, wd')
    /\ trace wd' = trace world0 ++ evs
    /\ (clock world0 <= clock wd')%nat
    /\ (List.length (errSink evs) <= List.length (flushes evs))%nat
    /\ Z.of_nat (clock wd' - clock world0)
       <= (retryLimit (config 2 0) + 1) * Z.of_nat (List.length (flushes evs)).
Proof.
  apply (run_charged_to_flushes marshalRecord urlParseError
           (NetHTTP.Do (always 503)) (config 2 0)).
  unfold config, newWebhookForwarderHandler, GoInt.maxInt; simpl; lia.
Defined.

(** A buffer of two against a threshold of two, and a timer that fires on
    one buffered record. *)
Lemma flush_rearms_timer_witness :
  let w := config 2 Second in
  let after := {| eventsPayload := @nilSlice string; deadline := Some Second |} in
  (exists wd' evs,
     sizeFlush marshalRecord urlParseError (NetHTTP.Do (always 200)) w
       {| eventsPayload := mkSlice ["A"; "B"]; deadline := Some Second |} world0
     = Some (after, wd')
     /\ trace wd' = trace world0 ++ evs ++ [EvAfter Second]
     /\ flushes evs = [["A"; "B"]])
  /\ (exists wd' evs,
        bgIter marshalRecord urlParseError (NetHTTP.Do (always 200)) w
          {| msgReady := None; timerFired := true; pick := true |}
          {| eventsPayload := mkSlice ["A"]; deadline := Some Second |} world0
        = Some ((Continue after, false), wd')
        /\ trace wd' = trace world0 ++ evs ++ [EvAfter Second]
        /\ flushes evs = [["A"]]
        /\ (len (mkSlice ["A"]) = 0 -> evs = [])).
Proof.
  assert (Hlim : retryLimit (config 2 Second) < GoInt.maxInt)
    by (unfold config, newWebhookForwarderHandler, GoInt.maxInt; simpl; lia).
  assert (Hpos : 0 < batchInterval (config 2 Second)) by reflexivity.
  split.
  - apply (proj1 (flush_rearms_timer marshalRecord urlParseError
                    (NetHTTP.Do (always 200)) (config 2 Second)
                    {| msgReady := None; timerFired := true; pick := true |}
                    {| eventsPayload := mkSlice ["A"; "B"]; deadline := Some Second |}
                    world0 Hlim Hpos eq_refl)).
    reflexivity.
  - apply (proj2 (flush_rearms_timer marshalRecord urlParseError
                    (NetHTTP.Do (always 200)) (config 2 Second)
                    {| msgReady := None; timerFired := true; pick := true |}
                    {| eventsPayload := mkSlice ["A"]; deadline := Some Second |}
                    world0 Hlim Hpos eq_refl)).
    + reflexivity.
    + reflexivity.
    + left; reflexivity.
Defined.

End MoreRuns.
